(** * Resume skill-extraction pipeline (skills_extraction_Llama_ds.ipynb)

    A shallow embedding of the four stages of the notebook: the text
    normalizer ([Text_Clean]), the skill extractor
    ([extract_skills_llama3_sambanova] and its knowledge-graph variant),
    the ontology mapper ([clean_extracted_skills], [map_to_esco]) and the
    evaluator ([calculate_metrics]), followed by the properties proved of
    them.

    Modelling conventions.
    - A Python [str] is a [string]; a character is an 8-bit code point,
      read as the Latin-1 block of Unicode, and the character classes
      below are Python's on that block.
    - A Python [set] of strings is a [gset string], a [dict] from strings to
      strings a [gmap string string], a list a [list].
    - Python's true division produces a float; the metrics are modelled
      with exact rationals ([Q]).
    - The remote inference client and the fuzzywuzzy scorer are third-party
      code: the first is an oracle indexed by the number of calls made so
      far, the second a parameter [scorer]. *)

From Stdlib Require Import ZArith QArith Lqa String Ascii List Bool Lia.
From stdpp Require Import base option list sorting gmap sets strings.

Local Open Scope list_scope.
Local Open Scope string_scope.

(* ================================================================== *)
(** ** Python string primitives *)
(* ================================================================== *)

Definition code (c : ascii) : N := N_of_ascii c.

Definition between (lo hi : N) (c : ascii) : bool :=
  (lo <=? code c)%N && (code c <=? hi)%N.

(** [str.isspace] on one character, which is also the class [\s] of [re]:
    TAB..CR, FS..US, SPACE, NEL and NBSP. *)
Definition isspace (c : ascii) : bool :=
  between 9 13 c || between 28 32 c || (code c =? 133)%N || (code c =? 160)%N.

(** The class [\d] of [re] ([str.isdecimal]): the digits 0-9. *)
Definition isdecimal (c : ascii) : bool := between 48 57 c.

(** [str.isdigit] on one character: 0-9 and the superscripts 2, 3 and 1. *)
Definition isdigit_char (c : ascii) : bool :=
  isdecimal c || (code c =? 178)%N || (code c =? 179)%N || (code c =? 185)%N.

Definition isupper_char (c : ascii) : bool :=
  between 65 90 c || between 192 214 c || between 216 222 c.

(** [str.isalnum] on one character: letters, digits and the numeric
    characters (superscripts and vulgar fractions) of the block. *)
Definition isalnum_char (c : ascii) : bool :=
  between 48 57 c || between 65 90 c || between 97 122 c
  || (code c =? 170)%N || (code c =? 181)%N || (code c =? 186)%N
  || (code c =? 178)%N || (code c =? 179)%N || (code c =? 185)%N
  || between 188 190 c
  || between 192 214 c || between 216 246 c || between 248 255 c.

(** The class [\w] of [re]: alphanumerics and the underscore. *)
Definition isword (c : ascii) : bool := isalnum_char c || (code c =? 95)%N.

Definition lower_char (c : ascii) : ascii :=
  if isupper_char c then ascii_of_N (code c + 32) else c.

(** [s.lower()] *)
Fixpoint lower (s : string) : string :=
  match s with
  | EmptyString => EmptyString
  | String c s' => String (lower_char c) (lower s')
  end.

Fixpoint forallb_str (p : ascii -> bool) (s : string) : bool :=
  match s with
  | EmptyString => true
  | String c s' => p c && forallb_str p s'
  end.

Definition is_empty (s : string) : bool :=
  match s with EmptyString => true | _ => false end.

(** [s.isdigit()]: every character is a digit and there is at least one. *)
Definition isdigit (s : string) : bool :=
  negb (is_empty s) && forallb_str isdigit_char s.

Fixpoint lstrip (s : string) : string :=
  match s with
  | EmptyString => EmptyString
  | String c s' => if isspace c then lstrip s' else s
  end.

Fixpoint rstrip (s : string) : string :=
  match s with
  | EmptyString => EmptyString
  | String c s' =>
      let r := rstrip s' in
      if isspace c && is_empty r then EmptyString else String c r
  end.

(** [s.strip()] *)
Definition strip (s : string) : string := rstrip (lstrip s).

(** [s.replace(old, new)] for a non-empty [old]: the occurrences of [old]
    are replaced from left to right, without overlap. [skip] counts the
    characters of a matched occurrence still to be passed over. *)
Fixpoint replace_from (old new : string) (skip : nat) (s : string) : string :=
  match s with
  | EmptyString => EmptyString
  | String c s' =>
      match skip with
      | S k => replace_from old new k s'
      | O =>
          if String.prefix old s
          then new ++ replace_from old new (String.length old - 1) s'
          else String c (replace_from old new 0 s')
      end
  end.

Definition replace (old new s : string) : string := replace_from old new 0 s.

(** The pieces of [s] between the characters satisfying [p]
    ([s.split(c)] when [p] tests for the character [c]). *)
Fixpoint split_on (p : ascii -> bool) (s : string) : list string :=
  match s with
  | EmptyString => [EmptyString]
  | String c s' =>
      if p c then EmptyString :: split_on p s'
      else match split_on p s' with
           | h :: t => String c h :: t
           | [] => [String c EmptyString]
           end
  end.

(** [sep.join(l)] *)
Fixpoint join (sep : string) (l : list string) : string :=
  match l with
  | [] => EmptyString
  | [x] => x
  | x :: l' => x ++ sep ++ join sep l'
  end.

(** [re.sub(p+, ' ', s)] for a character class [p]: every maximal run of
    characters of the class becomes one space. [in_run] tells that the
    previous character belonged to the run being replaced. *)
Fixpoint sub_runs (p : ascii -> bool) (in_run : bool) (s : string) : string :=
  match s with
  | EmptyString => EmptyString
  | String c s' =>
      if p c then
        if in_run then sub_runs p true s' else String " " (sub_runs p true s')
      else String c (sub_runs p false s')
  end.

(** [re.sub(p, ' ', s)] for a character class [p]. *)
Fixpoint sub_each (p : ascii -> bool) (s : string) : string :=
  match s with
  | EmptyString => EmptyString
  | String c s' => String (if p c then " "%char else c) (sub_each p s')
  end.

(** [re.sub(p+, '', s)] for a character class [p]: the characters of the
    class are deleted. *)
Fixpoint delete_chars (p : ascii -> bool) (s : string) : string :=
  match s with
  | EmptyString => EmptyString
  | String c s' => if p c then delete_chars p s' else String c (delete_chars p s')
  end.

(** [spaced prev s]: the whitespace of [s] is made of single spaces, no two
    of them adjacent; [prev] tells that a space comes just before [s]. *)
Fixpoint spaced (prev : bool) (s : string) : bool :=
  match s with
  | EmptyString => true
  | String c s' =>
      if isspace c then negb prev && Ascii.eqb c " " && spaced true s'
      else spaced false s'
  end.

(** A string without whitespace at either end. *)
Definition stripped (s : string) : Prop := strip s = s.

(** [sorted(l)] on strings: code-point lexicographic order. *)
Definition str_le (a b : string) : Prop := String.leb a b = true.

#[global] Instance str_le_dec : RelDecision str_le.
Proof. intros a b. unfold str_le. apply bool_eq_dec. Defined.

Definition sorted (l : list string) : list string := merge_sort str_le l.

(* ================================================================== *)
(** ** Evaluator *)
(* ================================================================== *)

Definition Qgtb (a b : Q) : bool := negb (Qle_bool a b).

Definition Qnat (n : nat) : Q := inject_Z (Z.of_nat n).

(** [calculate_metrics(gt_set, pred_set)] *)
Definition calculate_metrics (gt_set pred_set : gset string) : Q * Q * Q :=
  let tp := size (pred_set ∩ gt_set) in
  let fp := size (pred_set ∖ gt_set) in
  let fn := size (gt_set ∖ pred_set) in
  let precision := if (0 <? tp + fp)%nat then (Qnat tp / Qnat (tp + fp))%Q else 0%Q in
  let recall := if (0 <? tp + fn)%nat then (Qnat tp / Qnat (tp + fn))%Q else 0%Q in
  let f1 := if Qgtb (precision + recall) 0
            then (2 * (precision * recall) / (precision + recall))%Q else 0%Q in
  (precision, recall, f1).

Definition precision_of (m : Q * Q * Q) : Q := fst (fst m).
Definition recall_of (m : Q * Q * Q) : Q := snd (fst m).
Definition f1_of (m : Q * Q * Q) : Q := snd m.


(* ================================================================== *)
(** ** Text Normalizer *)
(* ================================================================== *)

(** A value a cell of a data frame read from a CSV file can hold: a
    string, the missing value [NaN], or a number. *)
Inductive pyval : Type :=
  | PyStr (s : string)
  | PyNaN
  | PyInt (z : Z).

(** A pandas [.str] method on one cell of a column of dtype [object]: the
    string method on a string, the missing value [NaN] on anything else.
    (On a column of another dtype the accessor raises: see
    [Text_Clean_column].) *)
Definition str_accessor (f : string -> string) (v : pyval) : pyval :=
  match v with
  | PyStr s => PyStr (f s)
  | _ => PyNaN
  end.

Definition not_word_nor_space (c : ascii) : bool := negb (isword c || isspace c).

(** The five assignments to [df["Text_Clean"]], on one string. *)
Definition Text_Clean_str (Text : string) : string :=
  let t := lower Text in
  let t := sub_runs isdecimal false t in
  let t := sub_each not_word_nor_space t in
  let t := sub_runs isspace false t in
  strip t.

(** The same assignments on one cell of the column. *)
Definition Text_Clean (Text : pyval) : pyval :=
  let t := str_accessor lower Text in
  let t := str_accessor (sub_runs isdecimal false) t in
  let t := str_accessor (sub_each not_word_nor_space) t in
  let t := str_accessor (sub_runs isspace false) t in
  str_accessor strip t.

(** The inputs the normalizer and the mapper treat as malformed: anything
    that is not a string, and the strings that are empty once stripped. *)
Definition malformed (v : pyval) : Prop :=
  match v with
  | PyStr s => strip s = ""
  | _ => True
  end.

(* ================================================================== *)
(** ** Skill Extractor *)
(* ================================================================== *)

Inductive api_error : Type := Timeout | RateLimit | NetworkError.

Record message : Type := { role : string; content : string }.

Record request : Type :=
  { model : string; messages : list message; temperature : Q; max_tokens : nat }.

(** The remote endpoint: what the [n]-th call of the run answers to a
    request, a completion text or an exception. *)
Definition InferenceClient : Type := nat -> request -> api_error + string.

(** A computation that may call the endpoint: from the number of calls made
    so far to its outcome and the number of calls made afterwards. An
    exception ends the computation. *)
Definition Remote (A : Type) : Type := nat -> (api_error + A) * nat.

Definition ret {A} (a : A) : Remote A := fun n => (inr a, n).

Definition bind {A B} (m : Remote A) (k : A -> Remote B) : Remote B :=
  fun n =>
    match m n with
    | (inl e, n') => (inl e, n')
    | (inr a, n') => k a n'
    end.

Notation "x <- m ;; k" := (bind m (fun x => k))
  (at level 100, m at next level, right associativity).

(** [client.chat.completions.create(...)] followed by
    [.choices[0].message.content] *)
Definition chat_completions_create (client : InferenceClient) (req : request)
  : Remote string :=
  fun n => (client n req, S n).

Definition nl : string := String (ascii_of_nat 10) EmptyString.

Definition LLAMA_MODEL_ID : string := "meta-llama/Llama-3.3-70B-Instruct".

Definition MAX_RESUME_CHARS_FOR_LLM : nat := 4000.

Definition truncate_resume (resume_text : string) : string :=
  if (MAX_RESUME_CHARS_FOR_LLM <? String.length resume_text)%nat
  then substring 0 MAX_RESUME_CHARS_FOR_LLM resume_text ++ "..."
  else resume_text.

Definition extract_skills_llama3_sambanova (client : InferenceClient)
    (resume_text : string) : Remote string :=
  let resume_text_for_llm := truncate_resume resume_text in
  let messages :=
    [ {| role := "system";
         content := "You are a professional resume parser. Extract all technical skills from the resume below. Only output a clean, comma-separated list. No extra words." |};
      {| role := "user"; content := resume_text_for_llm ++ nl ++ nl ++ "Skills:" |} ] in
  raw_output <- chat_completions_create client
      {| model := LLAMA_MODEL_ID; messages := messages;
         temperature := (2 # 10)%Q; max_tokens := 200 |} ;;
  ret raw_output.

Definition dquote : string := String (ascii_of_nat 34) EmptyString.

Definition extract_skills_llama3_sambanova_kg (resume_text esco_context_skills_str
    few_shot_examples_str : string) (client : InferenceClient) : Remote string :=
  let resume_text_for_llm := truncate_resume resume_text in
  let system_prompt_kg :=
    "You are a professional resume parser. "
    ++ "Extract all technical skills from the resume below. "
    ++ "Only output a clean, comma-separated list. No extra words or introductory phrases."
    ++ nl ++ nl ++ few_shot_examples_str ++ nl ++ nl
    ++ "For guidance and inspiration, consider skills that are closely related to or are present in the following list of relevant ESCO skills::"
    ++ "[" ++ esco_context_skills_str ++ "]." in
  let messages :=
    [ {| role := "system"; content := system_prompt_kg |};
      {| role := "user";
         content := "Resume: " ++ dquote ++ resume_text_for_llm ++ dquote ++ nl ++ nl ++ "Skills:" |} ] in
  chat_completions_create client
      {| model := LLAMA_MODEL_ID; messages := messages;
         temperature := (2 # 10)%Q; max_tokens := 200 |}.

(** The requests the two extractors send for a resume. *)
Definition zero_shot_request (resume_text : string) : request :=
  {| model := LLAMA_MODEL_ID;
     messages :=
       [ {| role := "system";
            content := "You are a professional resume parser. Extract all technical skills from the resume below. Only output a clean, comma-separated list. No extra words." |};
         {| role := "user"; content := truncate_resume resume_text ++ nl ++ nl ++ "Skills:" |} ];
     temperature := (2 # 10)%Q; max_tokens := 200 |}.

Definition kg_request (esco_context_skills_str few_shot_examples_str resume_text : string)
  : request :=
  {| model := LLAMA_MODEL_ID;
     messages :=
       [ {| role := "system";
            content :=
              "You are a professional resume parser. "
              ++ "Extract all technical skills from the resume below. "
              ++ "Only output a clean, comma-separated list. No extra words or introductory phrases."
              ++ nl ++ nl ++ few_shot_examples_str ++ nl ++ nl
              ++ "For guidance and inspiration, consider skills that are closely related to or are present in the following list of relevant ESCO skills::"
              ++ "[" ++ esco_context_skills_str ++ "]." |};
         {| role := "user";
            content := "Resume: " ++ dquote ++ truncate_resume resume_text ++ dquote
                       ++ nl ++ nl ++ "Skills:" |} ];
     temperature := (2 # 10)%Q; max_tokens := 200 |}.

(** [column.progress_apply(f)]: [f] on every record in input order; an
    exception raised by [f] leaves the loop. *)
Fixpoint progress_apply {A B} (f : A -> Remote B) (column : list A) : Remote (list B) :=
  match column with
  | [] => ret []
  | x :: rest =>
      y <- f x ;;
      ys <- progress_apply f rest ;;
      ret (y :: ys)
  end.

(* ================================================================== *)
(** ** Ontology Mapper *)
(* ================================================================== *)

Definition is_comma (c : ascii) : bool := (code c =? 44)%N.
Definition is_bar (c : ascii) : bool := (code c =? 124)%N.

(** The separators matched by [,\s*|\s*,\s*] are the commas with the
    whitespace around them, so the pieces of [re.split] are the pieces
    between commas without the whitespace that touches a comma. The outer
    ends of the first and the last piece are left alone. *)
Fixpoint trim_pieces (first : bool) (pieces : list string) : list string :=
  match pieces with
  | [] => []
  | [x] => [if first then x else lstrip x]
  | x :: rest => (if first then rstrip x else strip x) :: trim_pieces false rest
  end.

(** [re.split(r',\s*|\s*,\s*', text)] *)
Definition re_split_commas (text : string) : list string :=
  trim_pieces true (split_on is_comma text).

(** The class [[^a-z0-9\s\.\+#-]]. *)
Definition not_skill_char (c : ascii) : bool :=
  negb (between 97 122 c || between 48 57 c || isspace c
        || (code c =? 46)%N || (code c =? 43)%N || (code c =? 35)%N
        || (code c =? 45)%N).

(** The condition of the set comprehension of [clean_extracted_skills]. *)
Definition keep_candidate (s : string) : bool :=
  negb (is_empty (strip s)) && (1 <? String.length (strip s))%nat
  && negb (isdigit (strip s)).

(** What the set comprehension of [clean_extracted_skills] computes from a
    fragment it keeps. *)
Definition cleanup (s : string) : string := strip (delete_chars not_skill_char s).

Definition clean_extracted_skills (text : pyval) : gset string :=
  match text with
  | PyStr text =>
      if is_empty (strip text) then ∅
      else
        let text := replace " and " ", " (replace ";" "," (lower text)) in
        let raw_skill_candidates := re_split_commas text in
        list_to_set
          (map (fun s => strip (delete_chars not_skill_char s))
               (List.filter keep_candidate raw_skill_candidates))
  | _ => ∅
  end.

(** [pat in s]: [pat] occurs in [s]. *)
Fixpoint contains (pat s : string) : bool :=
  String.prefix pat s
  || match s with
     | EmptyString => false
     | String _ s' => contains pat s'
     end.

(** A label that the cleaning of a comma-joined list of labels gives back
    unchanged up to case: it has no whitespace at its ends, more than one
    character, is not purely numeric, is made of the characters the
    cleaning keeps once lower-cased, does not contain the conjunction
    [" and "] and does not start with ["and "]. *)
Definition survives_cleaning (label : string) : bool :=
  String.eqb (strip label) label
  && (1 <? String.length label)%nat
  && negb (isdigit label)
  && forallb_str (fun c => negb (not_skill_char (lower_char c))) label
  && negb (contains " and " (lower label))
  && negb (String.prefix "and " (lower label)).

(** A lower-case phrase that the cleaning leaves as it is. *)
Record clean_phrase (x : string) : Prop :=
  { cp_stripped : strip x = x;
    cp_length : (1 < String.length x)%nat;
    cp_not_digit : isdigit x = false;
    cp_chars : forallb_str (fun c => negb (not_skill_char c)) x = true;
    cp_no_and : contains " and " x = false;
    cp_no_and_prefix : String.prefix "and " x = false }.

(** A row of [esco_df]: the two columns kept from skills_en.csv. *)
Record esco_row : Type := { preferredLabel : string; altLabels : pyval }.

(** [Series.unique()]: the values in order of first appearance. *)
Fixpoint unique (l : list string) : list string :=
  match l with
  | [] => []
  | x :: l' => x :: List.filter (fun y => negb (String.eqb y x)) (unique l')
  end.

(** The canonical labels of the ontology: the column [preferredLabel]. *)
Definition labels_of (esco_df : list esco_row) : list string := map preferredLabel esco_df.

Definition esco_preferred_lower_list_of (esco_df : list esco_row) : list string :=
  map (fun row => lower (preferredLabel row)) esco_df.

Definition pref_map_of (esco_df : list esco_row) : gmap string string :=
  foldl (fun m label => <[lower label := label]> m) ∅
        (unique (labels_of esco_df)).

(** The alternate labels of one [altLabels] field, as the comprehension of
    [alt_map] enumerates them, each already stripped. *)
Definition alt_labels (alts : string) : list string :=
  List.filter (fun alt => negb (is_empty alt))
    (map strip (split_on is_bar (replace dquote "" (lower alts)))).

Definition alt_map_of (esco_df : list esco_row) : gmap string string :=
  foldl (fun m row =>
           match altLabels row with
           | PyStr alts =>
               foldl (fun m alt => <[alt := preferredLabel row]> m) m (alt_labels alts)
           | _ => m
           end) ∅ esco_df.

(** [process.extractOne(query, choices, scorer=...)] of fuzzywuzzy: the
    first choice of maximal score with its score, [None] when there is no
    choice. *)
Fixpoint extractOne (scorer : string -> string -> nat) (query : string)
    (choices : list string) : option (string * nat) :=
  match choices with
  | [] => None
  | c :: rest =>
      match extractOne scorer query rest with
      | Some (c', sc') =>
          if (sc' <=? scorer query c)%nat then Some (c, scorer query c)
          else Some (c', sc')
      | None => Some (c, scorer query c)
      end
  end.

Definition map_to_esco (scorer : string -> string -> nat) (esco_df : list esco_row)
    (skill_name : string) (pref_map_ref alt_map_ref : gmap string string)
    (esco_lower_list_ref : list string) : option string :=
  let skill := strip (lower skill_name) in
  if is_empty skill then None
  else
    match pref_map_ref !! skill with
    | Some label => Some label
    | None =>
        match alt_map_ref !! skill with
        | Some label => Some label
        | None =>
            match extractOne scorer skill esco_lower_list_ref with
            | Some (choice, score) =>
                if (60 <=? score)%nat then
                  match List.filter (fun row => String.eqb (lower (preferredLabel row)) choice)
                                    esco_df with
                  | row :: _ => Some (preferredLabel row)
                  | [] => None
                  end
                else None
            | None => None
            end
        end
    end.

(** The list built by the lambda of the mapping cell:
    [sorted(list(filter(None, [map_to_esco(x, ...) for x in s])))]. *)
Definition mapped_labels (scorer : string -> string -> nat) (esco_df : list esco_row)
    (s : gset string) : list string :=
  sorted
    (List.filter (fun label => negb (is_empty label))
       (omap (fun x => map_to_esco scorer esco_df x (pref_map_of esco_df)
                         (alt_map_of esco_df) (esco_preferred_lower_list_of esco_df))
             (elements s))).

Definition mapped_skills_str (scorer : string -> string -> nat) (esco_df : list esco_row)
    (s : gset string) : string :=
  join ", " (mapped_labels scorer esco_df s).

(** The mapper on one raw extraction: cleaning, then mapping. *)
Definition mapper (scorer : string -> string -> nat) (esco_df : list esco_row)
    (extracted_skills_raw : pyval) : list string :=
  mapped_labels scorer esco_df (clean_extracted_skills extracted_skills_raw).

(* ================================================================== *)
(** ** Fixtures *)
(* ================================================================== *)

(** The sets of the evaluator's worked example. *)
Definition mapped_ex : gset string := {[ "python"; "sql" ]}.
Definition expected_ex : gset string := {[ "python"; "r" ]}.

(** An endpoint that is rate limited on the first call of the run and
    answers every later call. *)
Definition flaky_client : InferenceClient :=
  fun n _ => match n with O => inl RateLimit | S _ => inr "python, sql" end.

(** A small ontology: canonical labels with their alternate labels. *)
Definition esco_fixture : list esco_row :=
  [ {| preferredLabel := "Python (computer programming)";
       altLabels := PyStr "python|python programming" |};
    {| preferredLabel := "SQL"; altLabels := PyNaN |};
    {| preferredLabel := "data analysis"; altLabels := PyStr "analysing data | data analytics" |} ].

(** A scorer for the fixtures: 100 for equal strings, 0 otherwise. *)
Definition equality_scorer (a b : string) : nat :=
  if String.eqb a b then 100 else 0.

(** An ontology in which a label contains the conjunction that the
    cleaning splits at, and one of its halves is a label of its own. *)
Definition conjunction_fixture : list esco_row :=
  [ {| preferredLabel := "statistics"; altLabels := PyNaN |};
    {| preferredLabel := "statistics and probability";
       altLabels := PyStr "probability theory" |} ].

(* ================================================================== *)
(** ** Further functions of the notebook *)
(* ================================================================== *)

From Stdlib Require DecimalString.

(** The class [[\s,;]] of [clean_output]. *)
Definition is_output_sep (c : ascii) : bool :=
  isspace c || is_comma c || (code c =? 59)%N.

(** [re.split(p+, s)] for a character class [p]: the pieces between the
    maximal runs of characters of the class, with an empty piece before a
    run that starts the string and after one that ends it. [in_run] tells
    that the previous character belonged to a run. *)
Fixpoint split_runs (p : ascii -> bool) (in_run : bool) (s : string) : list string :=
  match s with
  | EmptyString => [EmptyString]
  | String c s' =>
      if p c then
        if in_run then split_runs p true s' else EmptyString :: split_runs p true s'
      else match split_runs p false s' with
           | h :: t => String c h :: t
           | [] => [String c EmptyString]
           end
  end.

(** [clean_output(text)] of the extraction cell. *)
Definition clean_output (text : pyval) : string :=
  match text with
  | PyStr text =>
      if is_empty (strip text) then ""
      else
        let skills_list :=
          map (fun s => lower (strip s))
              (List.filter (fun s => negb (is_empty (strip s)))
                           (split_runs is_output_sep false text)) in
        join ", " skills_list
  | _ => ""
  end.

(** A token of the output of [clean_output]: not empty, free of the
    separators and in lower case. *)
Definition output_token (s : string) : bool :=
  negb (is_empty s)
  && forallb_str (fun c => negb (is_output_sep c) && Ascii.eqb (lower_char c) c) s.

(** A character the normalizer can leave in its output: a space, or a word
    character that is not a digit of [\d], not whitespace and not in upper
    case. *)
Definition normal_char (c : ascii) : bool :=
  Ascii.eqb c " "
  || (isword c && negb (isdecimal c) && negb (isspace c) && Ascii.eqb (lower_char c) c).

(** The keywords of the knowledge-graph cell. *)
Definition data_science_keywords : list string :=
  [ "Python"; "R"; "SQL"; "PySpark"; "Scala"; "Julia";
    "Jupyter Notebook"; "Google Colab"; "RStudio";
    "Pandas"; "NumPy"; "Polars"; "Dask"; "Apache Arrow";
    "PyArrow"; "SQLAlchemy"; "psycopg2";
    "Scikit-learn"; "TensorFlow"; "PyTorch"; "Keras"; "XGBoost";
    "LightGBM"; "CatBoost"; "Hugging Face"; "spaCy"; "NLTK";
    "Apache Spark"; "Hadoop"; "Databricks"; "Snowflake";
    "AWS SageMaker"; "Azure ML"; "GCP Vertex AI"; "BigQuery";
    "Redshift"; "Delta Lake"; "Apache Kafka";
    "Matplotlib"; "Seaborn"; "Plotly"; "Dash"; "Streamlit";
    "Tableau"; "Power BI"; "Looker"; "Metabase";
    "MLflow"; "Kubeflow"; "Airflow"; "Prefect"; "Docker";
    "Kubernetes"; "FastAPI"; "Flask"; "TF Serving";
    "Deep Learning"; "Computer Vision"; "NLP"; "LLMs";
    "Time Series Analysis"; "Survival Analysis"; "Reinforcement Learning";
    "Generative AI"; "Graph Neural Networks";
    "ETL"; "ELT"; "Data Pipelines"; "Data Warehousing";
    "Data Modeling"; "dbt"; "Airbyte"; "Fivetran";
    "Statistical Modeling"; "Bayesian Statistics"; "Experimental Design";
    "Causal Inference"; "Optimization"; "Linear Algebra";
    "Fraud Detection"; "Recommendation Systems"; "Forecasting";
    "Anomaly Detection"; "Customer Segmentation"; "A/B Testing" ].

(** [Series.str.contains(pattern, case=False, regex=True)] on one string,
    for the pattern that joins the escaped keywords with [|]: some keyword
    occurs in the string, case ignored. *)
Definition contains_keyword (keywords : list string) (s : string) : bool :=
  existsb (fun k => contains (lower k) (lower s)) keywords.

(** [Series.astype(str)] on one cell. *)
Definition astype_str (v : pyval) : string :=
  match v with
  | PyStr s => s
  | PyNaN => "nan"
  | PyInt z => DecimalString.NilZero.string_of_int (Z.to_int z)
  end.

(** The rows kept in [esco_df_ce_related]. *)
Definition esco_df_ce_related_of (esco_df_full : list esco_row) : list esco_row :=
  List.filter
    (fun row => contains_keyword data_science_keywords (preferredLabel row)
                || contains_keyword data_science_keywords (astype_str (altLabels row)))
    esco_df_full.

Definition n_samples_for_prompt : nat := 50.

(** [num_to_sample] of the knowledge-graph cell ([0] when nothing is
    available, where the sample is the empty list). *)
Definition num_to_sample_of (esco_df_full : list esco_row) : nat :=
  Nat.min n_samples_for_prompt (length (esco_df_ce_related_of esco_df_full)).

(** An endpoint that answers every call. *)
Definition steady_client : InferenceClient := fun _ _ => inr "python, sql".

(** A scorer for the fixtures: the same score for every pair. *)
Definition constant_scorer (a b : string) : nat := 75.

(* ================================================================== *)
(** ** Exceptions of the cells *)
(* ================================================================== *)

(** The exceptions the notebook can raise on a value that is not a string. *)
Inductive py_exception : Type := AttributeError | TypeError.

(** [isinstance(v, str)] *)
Definition is_str (v : pyval) : bool :=
  match v with PyStr _ => true | _ => false end.

(** The dtype of a column read by [read_csv] is [object] when the column
    holds a string, and also when it has no row; a column of numbers and
    missing values only has a numeric dtype. *)
Definition object_dtype (column : list pyval) : bool :=
  match column with
  | [] => true
  | _ => existsb is_str column
  end.

(** The normalizer on the column [df["Text"]]. The [.str] accessor raises
    [AttributeError] on a column whose dtype is not [object]; on an
    [object] column the five assignments work cell by cell. *)
Definition Text_Clean_column (Text : list pyval) : py_exception + list pyval :=
  if object_dtype Text then inr (map Text_Clean Text) else inl AttributeError.

(** [v.strip()] and [v.lower()] as method calls on a value: a value that is
    not a string has no such method. *)
Definition call_strip (v : pyval) : py_exception + string :=
  match v with PyStr s => inr (strip s) | _ => inl AttributeError end.

Definition call_lower (v : pyval) : py_exception + string :=
  match v with PyStr s => inr (lower s) | _ => inl AttributeError end.

(** [clean_extracted_skills(text)] with the method calls checked: the guard
    [not isinstance(text, str) or not text.strip()] evaluates [text.strip()]
    only for a string. *)
Definition clean_extracted_skills_checked (text : pyval) : py_exception + gset string :=
  if negb (is_str text) then inr ∅
  else
    match call_strip text with
    | inl x => inl x
    | inr stripped =>
        if is_empty stripped then inr ∅
        else
          match call_lower text with
          | inl x => inl x
          | inr lowered =>
              let text := replace " and " ", " (replace ";" "," lowered) in
              let raw_skill_candidates := re_split_commas text in
              inr (list_to_set
                     (map (fun s => strip (delete_chars not_skill_char s))
                          (List.filter keep_candidate raw_skill_candidates)))
          end
    end.

(** The two [apply] of the mapping cell on one cell of
    [extracted_skills_raw]: the cleaning, then the mapped string. *)
Definition mapped_skills_str_checked (scorer : string -> string -> nat)
    (esco_df : list esco_row) (extracted_skills_raw : pyval) : py_exception + string :=
  match clean_extracted_skills_checked extracted_skills_raw with
  | inl x => inl x
  | inr s => inr (mapped_skills_str scorer esco_df s)
  end.

(** What ends a batch of extractions: a failed call of the endpoint, or an
    exception raised by the extractor itself. *)
Inductive failure : Type :=
  | ApiFailure (e : api_error)
  | Raised (x : py_exception).

(** A computation that may call the endpoint or raise. *)
Definition Run (A : Type) : Type := nat -> (failure + A) * nat.

Definition run_ret {A} (a : A) : Run A := fun n => (inr a, n).

Definition run_bind {A B} (m : Run A) (k : A -> Run B) : Run B :=
  fun n =>
    match m n with
    | (inl e, n') => (inl e, n')
    | (inr a, n') => k a n'
    end.

Definition lift_remote {A} (m : Remote A) : Run A :=
  fun n =>
    match m n with
    | (inl e, n') => (inl (ApiFailure e), n')
    | (inr a, n') => (inr a, n')
    end.

(** An extractor on one cell of the column [Text_Clean] as read back from
    the CSV file: its first operation is [len(resume_text)], which raises
    [TypeError] on a cell that is not a string, before any call. *)
Definition extract_cell (extract : string -> Remote string) (resume_text : pyval)
  : Run string :=
  match resume_text with
  | PyStr t => lift_remote (extract t)
  | _ => fun n => (inl (Raised TypeError), n)
  end.

(** [column.progress_apply(f)] on a column of cells. *)
Fixpoint progress_apply_cells {B} (f : pyval -> Run B) (column : list pyval)
  : Run (list B) :=
  match column with
  | [] => run_ret []
  | x :: rest =>
      run_bind (f x) (fun y =>
      run_bind (progress_apply_cells f rest) (fun ys =>
      run_ret (y :: ys)))
  end.

(* ================================================================== *)
(** ** Lemmas on the string primitives *)
(* ================================================================== *)

Section StringFacts.

Implicit Types (s t : string) (c : ascii) (p q : ascii -> bool).

Lemma is_empty_true s : is_empty s = true <-> s = "".
Proof. destruct s; simpl; split; congruence. Qed.

Lemma is_empty_false s : is_empty s = false <-> s <> "".
Proof. destruct s; simpl; split; congruence. Qed.

Lemma forallb_str_In p s :
  forallb_str p s = true -> forall c, In c (list_ascii_of_string s) -> p c = true.
Proof.
  induction s as [|a s IH]; simpl; [tauto|].
  intros H c [->|Hin]; apply andb_true_iff in H as [Ha Hs]; auto.
Qed.

Lemma forallb_str_app p s t :
  forallb_str p (s ++ t) = forallb_str p s && forallb_str p t.
Proof.
  induction s as [|a s IH]; simpl; [reflexivity|].
  now rewrite IH, andb_assoc.
Qed.

Lemma forallb_str_lstrip p s :
  forallb_str p s = true -> forallb_str p (lstrip s) = true.
Proof.
  induction s as [|a s IH]; simpl; [tauto|].
  intros H. destruct (isspace a); [|exact H].
  apply andb_true_iff in H as [_ Hs]. auto.
Qed.

Lemma forallb_str_rstrip p s :
  forallb_str p s = true -> forallb_str p (rstrip s) = true.
Proof.
  induction s as [|a s IH]; simpl; [tauto|].
  intros H. apply andb_true_iff in H as [Ha Hs].
  destruct (isspace a && is_empty (rstrip s)); simpl; [reflexivity|].
  now rewrite Ha, IH.
Qed.

Lemma forallb_str_strip p s :
  forallb_str p s = true -> forallb_str p (strip s) = true.
Proof. intros H. now apply forallb_str_rstrip, forallb_str_lstrip. Qed.

Lemma forallb_str_sub_runs p q b s :
  p " "%char = true ->
  (forall c, In c (list_ascii_of_string s) -> q c = false -> p c = true) ->
  forallb_str p (sub_runs q b s) = true.
Proof.
  intros Hsp. revert b. induction s as [|a s IH]; intros b H; simpl; [reflexivity|].
  assert (Hs : forall c, In c (list_ascii_of_string s) -> q c = false -> p c = true).
  { intros c Hc. apply H. now right. }
  destruct (q a) eqn:Hq.
  - destruct b; simpl; [|rewrite Hsp; simpl]; apply IH; exact Hs.
  - simpl. rewrite (H a); [apply IH; exact Hs|now left|exact Hq].
Qed.

Lemma forallb_str_sub_each p q s :
  p " "%char = true ->
  forallb_str p s = true -> forallb_str p (sub_each q s) = true.
Proof.
  intros Hsp. induction s as [|a s IH]; simpl; [tauto|].
  intros H. apply andb_true_iff in H as [Ha Hs].
  rewrite (IH Hs), andb_true_r. now destruct (q a).
Qed.

Lemma forallb_str_delete_chars q s :
  forallb_str (fun c => negb (q c)) (delete_chars q s) = true.
Proof.
  induction s as [|a s IH]; simpl; [reflexivity|].
  destruct (q a) eqn:Hq; simpl; [exact IH|]. now rewrite Hq.
Qed.

Lemma spaced_sub_runs b s : spaced b (sub_runs isspace b s) = true.
Proof.
  revert b. induction s as [|a s IH]; intros b; simpl; [reflexivity|].
  destruct (isspace a) eqn:Ha.
  - destruct b; [apply IH|]. simpl. apply IH.
  - simpl. rewrite Ha. apply IH.
Qed.

Lemma spaced_lstrip b b' s : spaced b s = true -> spaced b' (lstrip s) = true.
Proof.
  revert b. induction s as [|a s IH]; intros b; simpl; [tauto|].
  destruct (isspace a) eqn:Ha.
  - intros H. apply andb_true_iff in H as [_ H]. eauto.
  - simpl. now rewrite Ha.
Qed.

Lemma spaced_rstrip s : forall b, spaced b s = true -> spaced b (rstrip s) = true.
Proof.
  induction s as [|a s IH]; intros b; simpl; [tauto|].
  intros H. destruct (isspace a && is_empty (rstrip s)); [reflexivity|].
  simpl. destruct (isspace a).
  - apply andb_true_iff in H as [H1 H2]. rewrite H1. simpl. auto.
  - auto.
Qed.

Lemma spaced_app_r s t : forall b, spaced b (s ++ t) = true -> exists b', spaced b' t = true.
Proof.
  induction s as [|a s IH]; intros b; simpl; [eauto|].
  destruct (isspace a).
  - intros H. apply andb_true_iff in H as [_ H]. eauto.
  - eauto.
Qed.

Lemma spaced_no_double_space b s pre post :
  spaced b s = true -> s <> pre ++ "  " ++ post.
Proof.
  intros H ->. apply spaced_app_r in H as [b' H].
  simpl in H. rewrite andb_false_r in H. discriminate.
Qed.

End StringFacts.

Section StripFacts.

Implicit Types (s t : string) (c : ascii).

Lemma lstrip_head s :
  lstrip s = "" \/ exists c s', lstrip s = String c s' /\ isspace c = false.
Proof.
  induction s as [|a s IH]; simpl; [now left|].
  destruct (isspace a) eqn:Ha; [exact IH|]. right. eauto.
Qed.

Lemma rstrip_idem s : rstrip (rstrip s) = rstrip s.
Proof.
  induction s as [|a s IH]; simpl; [reflexivity|].
  destruct (isspace a && is_empty (rstrip s)) eqn:E; simpl; [reflexivity|].
  now rewrite IH, E.
Qed.

Lemma lstrip_nonspace c s : isspace c = false -> lstrip (String c s) = String c s.
Proof. intros H. simpl. now rewrite H. Qed.

Lemma rstrip_nonspace c s : isspace c = false -> rstrip (String c s) = String c (rstrip s).
Proof. intros H. simpl. now rewrite H. Qed.

Lemma lstrip_strip s : lstrip (strip s) = strip s.
Proof.
  unfold strip. destruct (lstrip_head s) as [->|(c & s' & -> & Hc)]; [reflexivity|].
  rewrite (rstrip_nonspace _ _ Hc). now apply lstrip_nonspace.
Qed.

Lemma rstrip_strip s : rstrip (strip s) = strip s.
Proof. unfold strip. apply rstrip_idem. Qed.

Lemma strip_idem s : strip (strip s) = strip s.
Proof. unfold strip at 1. now rewrite lstrip_strip, rstrip_strip. Qed.

Lemma stripped_strip s : stripped (strip s).
Proof. apply strip_idem. Qed.

Lemma stripped_lstrip s : stripped s -> lstrip s = s.
Proof. unfold stripped. intros <-. apply lstrip_strip. Qed.

Lemma stripped_rstrip s : stripped s -> rstrip s = s.
Proof. unfold stripped. intros <-. apply rstrip_strip. Qed.

Lemma isspace_lower_char c : isspace (lower_char c) = isspace c.
Proof.
  destruct c as [[] [] [] [] [] [] [] []]; reflexivity.
Qed.

Lemma is_empty_lower s : is_empty (lower s) = is_empty s.
Proof. now destruct s. Qed.

Lemma lstrip_lower s : lstrip (lower s) = lower (lstrip s).
Proof.
  induction s as [|a s IH]; simpl; [reflexivity|].
  rewrite isspace_lower_char. now destruct (isspace a).
Qed.

Lemma rstrip_lower s : rstrip (lower s) = lower (rstrip s).
Proof.
  induction s as [|a s IH]; simpl; [reflexivity|].
  rewrite isspace_lower_char, IH, is_empty_lower.
  now destruct (isspace a && is_empty (rstrip s)).
Qed.

Lemma strip_lower s : strip (lower s) = lower (strip s).
Proof. unfold strip. now rewrite lstrip_lower, rstrip_lower. Qed.

Lemma lower_char_idem c : lower_char (lower_char c) = lower_char c.
Proof.
  destruct c as [[] [] [] [] [] [] [] []]; reflexivity.
Qed.

Lemma lower_idem s : lower (lower s) = lower s.
Proof.
  induction s as [|a s IH]; simpl; [reflexivity|].
  now rewrite lower_char_idem, IH.
Qed.

Lemma lower_app s t : lower (s ++ t) = lower s ++ lower t.
Proof.
  induction s as [|a s IH]; simpl; [reflexivity|]. now rewrite IH.
Qed.

Lemma lower_empty s : lower s = "" -> s = "".
Proof. destruct s; simpl; congruence. Qed.

End StripFacts.

(* ================================================================== *)
(** ** Properties of the text normalizer *)
(* ================================================================== *)

Section NormalizerFacts.

Lemma Text_Clean_PyStr (Text : string) :
  Text_Clean (PyStr Text) = PyStr (Text_Clean_str Text).
Proof. reflexivity. Qed.

Lemma Text_Clean_no_digit (Text : string) :
  forallb_str (fun c => negb (isdecimal c)) (Text_Clean_str Text) = true.
Proof.
  unfold Text_Clean_str.
  apply forallb_str_strip.
  apply forallb_str_sub_runs; [reflexivity|].
  intros c Hc _. revert c Hc. apply forallb_str_In.
  apply forallb_str_sub_each; [reflexivity|].
  apply forallb_str_sub_runs; [reflexivity|].
  intros c _ ->. reflexivity.
Qed.

Lemma Text_Clean_spaced (Text : string) : spaced false (Text_Clean_str Text) = true.
Proof.
  unfold Text_Clean_str, strip.
  apply spaced_rstrip, (spaced_lstrip false), spaced_sub_runs.
Qed.

(** C9. For every input string, the output of the normalizer (which is the
    cell [Text_Clean] computes for a string cell) contains no digit
    character, that is no character of the class [\d], and nowhere two
    consecutive spaces. *)
Theorem normalizer_output_shape (Text : string) :
  Text_Clean (PyStr Text) = PyStr (Text_Clean_str Text)
  /\ (forall c, In c (list_ascii_of_string (Text_Clean_str Text)) -> isdecimal c = false)
  /\ (forall pre post, Text_Clean_str Text <> pre ++ "  " ++ post).
Proof.
  split; [reflexivity|]. split.
  - intros c Hc.
    pose proof (forallb_str_In _ _ (Text_Clean_no_digit Text) _ Hc) as H.
    now apply negb_true_iff in H.
  - intros pre post. apply (spaced_no_double_space false), Text_Clean_spaced.
Qed.

End NormalizerFacts.

(* ================================================================== *)
(** ** Properties of the skill extractor *)
(* ================================================================== *)

Section ExtractorFacts.

Variable client : InferenceClient.

(** The extractor is one call of the endpoint: the outcome of the call,
    completion or exception, is the outcome of the extraction. *)
Lemma extract_is_one_call (resume_text : string) (n : nat) :
  extract_skills_llama3_sambanova client resume_text n
  = (client n (zero_shot_request resume_text), S n).
Proof.
  unfold extract_skills_llama3_sambanova, bind, chat_completions_create, ret.
  fold (zero_shot_request resume_text).
  destruct (client n (zero_shot_request resume_text)); reflexivity.
Qed.

Lemma extract_kg_is_one_call (resume_text esco few_shot : string) (n : nat) :
  extract_skills_llama3_sambanova_kg resume_text esco few_shot client n
  = (client n (kg_request esco few_shot resume_text), S n).
Proof. reflexivity. Qed.

Section Batch.

(** Any per-record function that is one call of the endpoint. *)
Variable f : string -> Remote string.
Variable req : string -> request.
Hypothesis f_one_call : forall text n, f text n = (client n (req text), S n).

Lemma progress_apply_aborts (before : list string) :
  forall (text : string) (after : list string) (n : nat) (e : api_error),
    (forall i t, before !! i = Some t -> exists out, client (n + i) (req t) = inr out) ->
    client (n + length before) (req text) = inl e ->
    progress_apply f (before ++ text :: after) n = (inl e, S (n + length before)).
Proof.
  induction before as [|b before IH]; intros text after n e Hok Hfail.
  - simpl in *. rewrite Nat.add_0_r in *.
    unfold bind. now rewrite f_one_call, Hfail.
  - destruct (Hok 0%nat b eq_refl) as [out Hout]. rewrite Nat.add_0_r in Hout.
    cbn [app progress_apply]. unfold bind at 1. rewrite f_one_call, Hout.
    unfold bind at 1. rewrite (IH text after (S n) e).
    + simpl. now rewrite Nat.add_succ_r.
    + intros i t Hi. specialize (Hok (S i) t Hi).
      now rewrite Nat.add_succ_r in Hok.
    + simpl in Hfail. now rewrite Nat.add_succ_r in Hfail.
Qed.

Lemma progress_apply_succeeds (column : list string) :
  forall n : nat,
    (forall i t, column !! i = Some t -> exists out, client (n + i) (req t) = inr out) ->
    exists outs,
      progress_apply f column n = (inr outs, n + length column)
      /\ length outs = length column
      /\ forall i t, column !! i = Some t ->
           exists out, outs !! i = Some out /\ client (n + i) (req t) = inr out.
Proof.
  induction column as [|b column IH]; intros n Hok.
  - exists []. simpl. unfold ret. rewrite Nat.add_0_r. repeat split.
    intros i t Hi. discriminate.
  - destruct (Hok 0%nat b eq_refl) as [out Hout]. rewrite Nat.add_0_r in Hout.
    destruct (IH (S n)) as (outs & Hrun & Hlen & Hall).
    { intros i t Hi. specialize (Hok (S i) t Hi).
      now rewrite Nat.add_succ_r in Hok. }
    exists (out :: outs). split; [|split].
    + cbn [progress_apply]. unfold bind at 1. rewrite f_one_call, Hout.
      unfold bind at 1. rewrite Hrun. unfold ret. simpl.
      now rewrite Nat.add_succ_r.
    + simpl. now rewrite Hlen.
    + intros [|i] t Hi.
      * simpl in Hi. injection Hi as <-. exists out. rewrite Nat.add_0_r. now split.
      * simpl in Hi. destruct (Hall i t Hi) as (o & Ho & Hc).
        exists o. split; [exact Ho|]. now rewrite Nat.add_succ_r.
Qed.

End Batch.

End ExtractorFacts.

(** C8, as the code has it. Either extractor, the zero-shot one or the
    knowledge-graph one, is one call of the endpoint per record and hands
    the outcome of the call on unchanged: a completion is never replaced by
    an empty result and a failed call is not retried. When the call of a
    record fails after the calls of the records before it succeeded, the
    exception leaves the batch there: the batch ends in that failure, with
    one call made for the failing record and none for the records after
    it. *)
Theorem remote_failure_aborts_batch (client : InferenceClient)
    (esco few_shot : string) (kg : bool) (before : list string) (text : string)
    (after : list string) (n : nat) (e : api_error) :
  let req := if kg then kg_request esco few_shot else zero_shot_request in
  let extract :=
    if kg then fun x => extract_skills_llama3_sambanova_kg x esco few_shot client
    else extract_skills_llama3_sambanova client in
  (forall i t, before !! i = Some t -> exists out, client (n + i) (req t) = inr out) ->
  client (n + length before) (req text) = inl e ->
  (forall t m, extract t m = (client m (req t), S m))
  /\ progress_apply extract (before ++ text :: after) n = (inl e, S (n + length before)).
Proof.
  intros req extract Hok Hfail.
  assert (Hone : forall t m, extract t m = (client m (req t), S m)).
  { subst req extract. destruct kg; intros t m;
      [apply extract_kg_is_one_call | apply extract_is_one_call]. }
  split; [exact Hone|].
  now apply (progress_apply_aborts client extract req Hone).
Qed.

Lemma remote_failure_aborts_batch_witness :
  (forall t m, extract_skills_llama3_sambanova flaky_client t m
               = (flaky_client m (zero_shot_request t), S m))
  /\ progress_apply (extract_skills_llama3_sambanova flaky_client)
       ([] ++ "resume one" :: ["resume two"]) 0
     = (inl RateLimit, 1%nat).
Proof.
  apply (remote_failure_aborts_batch flaky_client "" "" false [] "resume one"
           ["resume two"] 0 RateLimit).
  - intros i t H. discriminate.
  - reflexivity.
Defined.

(** C8 fails as stated. The endpoint [flaky_client] fails transiently: its
    second call would answer. The extraction of the first record makes one
    call and ends in the failure, and the batch of two records ends in that
    failure after that one call, with no result for either record. *)
Lemma remote_failure_not_retried :
  flaky_client 1 (zero_shot_request "resume one") = inr "python, sql"
  /\ extract_skills_llama3_sambanova flaky_client "resume one" 0 = (inl RateLimit, 1%nat)
  /\ progress_apply (extract_skills_llama3_sambanova flaky_client)
       ["resume one"; "resume two"] 0 = (inl RateLimit, 1%nat).
Proof. repeat split. Qed.

(* ================================================================== *)
(** ** Cleaning a comma-joined list of labels *)
(* ================================================================== *)

Section CleanJoin.

Implicit Types (s t pat : string) (c : ascii) (ls : list string).

Lemma prefix_app_comma pat : forall s t,
  forallb_str (fun c => negb (is_comma c)) pat = true ->
  String.prefix pat (s ++ String "," t) = true -> String.prefix pat s = true.
Proof.
  induction pat as [|a pat IH]; intros s t Hpat H.
  - now destruct s.
  - simpl in Hpat. apply andb_true_iff in Hpat as [Ha Hpat].
    destruct s as [|b s]; simpl in H |- *.
    + destruct (ascii_dec a ","); [subst; discriminate|discriminate].
    + destruct (ascii_dec a b); [|discriminate]. eauto.
Qed.

Lemma contains_app_comma pat s t :
  forallb_str (fun c => negb (is_comma c)) pat = true -> pat <> "" ->
  contains pat s = false -> contains pat t = false ->
  contains pat (s ++ String "," t) = false.
Proof.
  intros Hpat Hne Hs Ht. induction s as [|b s IH].
  - simpl. rewrite Ht, orb_false_r.
    destruct pat as [|a pat]; [congruence|]. simpl.
    simpl in Hpat. apply andb_true_iff in Hpat as [Ha _].
    destruct (ascii_dec a ","); [subst; discriminate|reflexivity].
  - cbn [contains] in Hs. apply orb_false_iff in Hs as [Hp Hs].
    change (contains pat (String b (s ++ String "," t)) = false).
    cbn [contains]. rewrite (IH Hs), orb_false_r.
    destruct (String.prefix pat (String b (s ++ String "," t))) eqn:E; [|reflexivity].
    apply (prefix_app_comma pat (String b s) t Hpat) in E. congruence.
Qed.

Lemma replace_absent old new s : contains old s = false -> replace old new s = s.
Proof.
  unfold replace. induction s as [|c s IH]; [reflexivity|].
  intros H. cbn [contains] in H. apply orb_false_iff in H as [Hp Hc].
  cbn [replace_from]. rewrite Hp. now rewrite IH.
Qed.


Lemma forallb_str_impl (p q : ascii -> bool) s :
  (forall c, p c = true -> q c = true) ->
  forallb_str p s = true -> forallb_str q s = true.
Proof.
  intros Hpq. induction s as [|a s IH]; simpl; [tauto|].
  intros H. apply andb_true_iff in H as [Ha Hs]. now rewrite (Hpq a Ha), IH.
Qed.

Lemma forallb_str_lower (p : ascii -> bool) s :
  forallb_str p (lower s) = forallb_str (fun c => p (lower_char c)) s.
Proof. induction s as [|a s IH]; simpl; [reflexivity|]. now rewrite IH. Qed.

Lemma length_lower s : String.length (lower s) = String.length s.
Proof. induction s as [|a s IH]; simpl; [reflexivity|]. now rewrite IH. Qed.

Lemma isdigit_char_lower c : isdigit_char (lower_char c) = isdigit_char c.
Proof. destruct c as [[] [] [] [] [] [] [] []]; reflexivity. Qed.

Lemma isdigit_lower s : isdigit (lower s) = isdigit s.
Proof.
  unfold isdigit. rewrite is_empty_lower, forallb_str_lower. f_equal.
  induction s as [|a s IH]; simpl; [reflexivity|].
  now rewrite isdigit_char_lower, IH.
Qed.

Lemma survives_lower label : survives_cleaning label = true -> clean_phrase (lower label).
Proof.
  unfold survives_cleaning. rewrite !andb_true_iff, !negb_true_iff.
  intros [[[[[H1 H2] H3] H4] H5] H6]. apply String.eqb_eq in H1. apply Nat.ltb_lt in H2.
  split.
  - now rewrite strip_lower, H1.
  - now rewrite length_lower.
  - now rewrite isdigit_lower.
  - now rewrite forallb_str_lower.
  - exact H5.
  - exact H6.
Qed.

Lemma not_skill_no_comma c : negb (not_skill_char c) = true -> negb (is_comma c) = true.
Proof. destruct c as [[] [] [] [] [] [] [] []]; intros H; try reflexivity; discriminate H. Qed.

Lemma clean_phrase_no_comma x :
  clean_phrase x -> forallb_str (fun c => negb (is_comma c)) x = true.
Proof. intros H. eapply forallb_str_impl, (cp_chars _ H). apply not_skill_no_comma. Qed.

Lemma clean_phrase_head x :
  clean_phrase x -> exists c x', x = String c x' /\ isspace c = false.
Proof.
  intros H. pose proof (cp_length _ H) as Hlen.
  pose proof (stripped_lstrip x (cp_stripped _ H)) as Hl.
  destruct (lstrip_head x) as [E|(c & x' & E & Hc)]; rewrite Hl in E.
  - subst. simpl in Hlen. lia.
  - eauto.
Qed.

Lemma lower_join sep ls : lower (join sep ls) = join (lower sep) (map lower ls).
Proof.
  induction ls as [|x ls IH]; [reflexivity|].
  destruct ls as [|y ls]; [reflexivity|].
  change (lower (x ++ sep ++ join sep (y :: ls))
          = lower x ++ lower sep ++ join (lower sep) (map lower (y :: ls))).
  now rewrite !lower_app, IH.
Qed.

Lemma join_cons2 sep x y ls : join sep (x :: y :: ls) = x ++ sep ++ join sep (y :: ls).
Proof. reflexivity. Qed.

Lemma split_on_absent (p : ascii -> bool) s :
  forallb_str (fun c => negb (p c)) s = true -> split_on p s = [s].
Proof.
  induction s as [|a s IH]; simpl; [reflexivity|].
  intros H. apply andb_true_iff in H as [Ha Hs]. apply negb_true_iff in Ha.
  now rewrite Ha, IH.
Qed.

Lemma split_on_app (p : ascii -> bool) s c t :
  forallb_str (fun c => negb (p c)) s = true -> p c = true ->
  split_on p (s ++ String c t) = s :: split_on p t.
Proof.
  intros Hs Hc. induction s as [|a s IH]; simpl.
  - now rewrite Hc.
  - simpl in Hs. apply andb_true_iff in Hs as [Ha Hs]. apply negb_true_iff in Ha.
    now rewrite Ha, IH.
Qed.

Lemma append_cons c s t : String c s ++ t = String c (s ++ t).
Proof. reflexivity. Qed.

Lemma string_app_assoc s t (u : string) : (s ++ t) ++ u = s ++ t ++ u.
Proof.
  induction s as [|a s IH]; [reflexivity|]. now rewrite !append_cons, IH.
Qed.

(** The pieces of a joined list of clean phrases. *)
Lemma split_join ls : forall pre,
  Forall clean_phrase ls -> ls <> [] ->
  forallb_str (fun c => negb (is_comma c)) pre = true ->
  split_on is_comma (pre ++ join ", " ls)
  = match ls with
    | [] => []
    | x :: rest => (pre ++ x) :: map (String " ") rest
    end.
Proof.
  induction ls as [|x ls IH]; intros pre Hall Hne Hpre; [congruence|].
  inversion Hall as [|? ? Hx Hls]; subst.
  pose proof (clean_phrase_no_comma x Hx) as Hxc.
  destruct ls as [|y ls].
  - simpl. apply split_on_absent. now rewrite forallb_str_app, Hpre, Hxc.
  - rewrite join_cons2.
    change (", " ++ join ", " (y :: ls)) with (String "," (" " ++ join ", " (y :: ls))).
    rewrite <- string_app_assoc, split_on_app;
      [|now rewrite forallb_str_app, Hpre, Hxc|reflexivity].
    rewrite (IH " " Hls); [reflexivity|discriminate|reflexivity].
Qed.

Lemma trim_pieces_spaced ls :
  Forall clean_phrase ls -> trim_pieces false (map (String " ") ls) = ls.
Proof.
  induction ls as [|x ls IH]; intros Hall; [reflexivity|].
  inversion Hall as [|? ? Hx Hls]; subst.
  destruct ls as [|y ls].
  - simpl. now rewrite (stripped_lstrip x (cp_stripped _ Hx)).
  - change (strip (String " " x) :: trim_pieces false (map (String " ") (y :: ls))
            = x :: y :: ls).
    rewrite (IH Hls). f_equal. change (strip (String " " x)) with (strip x).
    apply (cp_stripped _ Hx).
Qed.

Lemma re_split_join ls :
  Forall clean_phrase ls -> ls <> [] -> re_split_commas (join ", " ls) = ls.
Proof.
  intros Hall Hne. unfold re_split_commas.
  change (join ", " ls) with ("" ++ join ", " ls).
  rewrite (split_join ls "" Hall Hne eq_refl).
  destruct ls as [|x ls]; [congruence|]. inversion Hall as [|? ? Hx Hls]; subst.
  destruct ls as [|y ls]; [reflexivity|].
  change (rstrip x :: trim_pieces false (map (String " ") (y :: ls)) = x :: y :: ls).
  now rewrite (trim_pieces_spaced _ Hls), (stripped_rstrip x (cp_stripped _ Hx)).
Qed.


Lemma delete_chars_absent (p : ascii -> bool) s :
  forallb_str (fun c => negb (p c)) s = true -> delete_chars p s = s.
Proof.
  induction s as [|a s IH]; simpl; [reflexivity|].
  intros H. apply andb_true_iff in H as [Ha Hs]. apply negb_true_iff in Ha.
  now rewrite Ha, IH.
Qed.

Lemma keep_clean_phrase x : clean_phrase x -> keep_candidate x = true.
Proof.
  intros H. unfold keep_candidate. rewrite (cp_stripped _ H), (cp_not_digit _ H).
  pose proof (cp_length _ H) as Hlen.
  assert (E : (1 <? String.length x)%nat = true) by now apply Nat.ltb_lt.
  rewrite E. destruct x; [simpl in Hlen; lia|reflexivity].
Qed.

Lemma filter_keep_clean ls :
  Forall clean_phrase ls -> List.filter keep_candidate ls = ls.
Proof.
  induction 1 as [|x ls Hx Hls IH]; simpl; [reflexivity|].
  now rewrite (keep_clean_phrase x Hx), IH.
Qed.

Lemma map_cleanup_clean ls :
  Forall clean_phrase ls ->
  map (fun s => strip (delete_chars not_skill_char s)) ls = ls.
Proof.
  induction 1 as [|x ls Hx Hls IH]; simpl; [reflexivity|].
  now rewrite (delete_chars_absent _ _ (cp_chars _ Hx)), (cp_stripped _ Hx), IH.
Qed.

Lemma contains_char_absent (p : ascii -> bool) c s :
  forallb_str p s = true -> p c = false -> contains (String c "") s = false.
Proof.
  intros Hs Hc. induction s as [|a s IH]; [reflexivity|].
  simpl in Hs. apply andb_true_iff in Hs as [Ha Hs].
  cbn [contains]. rewrite (IH Hs), orb_false_r. simpl.
  destruct (ascii_dec c a); [subst; congruence|reflexivity].
Qed.

(** The characters of a joined list of clean phrases. *)
Lemma join_chars ls :
  Forall clean_phrase ls ->
  forallb_str (fun c => negb (not_skill_char c) || is_comma c) (join ", " ls) = true.
Proof.
  induction 1 as [|x ls Hx Hls IH]; [reflexivity|].
  assert (Hxc : forallb_str (fun c => negb (not_skill_char c) || is_comma c) x = true).
  { eapply forallb_str_impl, (cp_chars _ Hx). intros c ->. reflexivity. }
  destruct ls as [|y ls]; [exact Hxc|].
  rewrite join_cons2, !forallb_str_app, Hxc, IH. reflexivity.
Qed.

(** No conjunction to split at in a joined list of clean phrases. *)
Lemma join_no_and ls :
  Forall clean_phrase ls -> ls <> [] ->
  contains " and " (join ", " ls) = false
  /\ String.prefix "and " (join ", " ls) = false.
Proof.
  induction 1 as [|x ls Hx Hls IH]; intros Hne; [congruence|].
  destruct ls as [|y ls].
  - split; [apply (cp_no_and _ Hx)|apply (cp_no_and_prefix _ Hx)].
  - destruct IH as [IH1 IH2]; [discriminate|].
    rewrite join_cons2.
    change (", " ++ join ", " (y :: ls)) with (String "," (" " ++ join ", " (y :: ls))).
    split.
    + apply contains_app_comma; [reflexivity|discriminate|apply (cp_no_and _ Hx)|].
      change (" " ++ join ", " (y :: ls)) with (String " " (join ", " (y :: ls))).
      cbn [contains]. rewrite IH1, orb_false_r.
      change (String.prefix " and " (String " " (join ", " (y :: ls))))
        with (String.prefix "and " (join ", " (y :: ls))).
      exact IH2.
    + destruct (String.prefix "and " (x ++ String "," (" " ++ join ", " (y :: ls)))) eqn:E;
        [|reflexivity].
      apply prefix_app_comma in E; [|reflexivity].
      now rewrite (cp_no_and_prefix _ Hx) in E.
Qed.

Lemma strip_join_nonempty ls :
  Forall clean_phrase ls -> ls <> [] -> is_empty (strip (join ", " ls)) = false.
Proof.
  intros Hall Hne. destruct ls as [|x ls]; [congruence|].
  inversion Hall as [|? ? Hx Hls]; subst.
  destruct (clean_phrase_head x Hx) as (c & x' & -> & Hc).
  assert (E : exists t, join ", " (String c x' :: ls) = String c t).
  { destruct ls; [eauto|]. rewrite join_cons2, append_cons. eauto. }
  destruct E as [t ->]. unfold strip.
  now rewrite (lstrip_nonspace _ _ Hc), (rstrip_nonspace _ _ Hc).
Qed.

(** Cleaning the comma-joined list of labels that survive the cleaning
    gives the labels back, lower-cased. *)
Lemma clean_join_labels (labels : list string) :
  Forall (fun l => survives_cleaning l = true) labels ->
  clean_extracted_skills (PyStr (join ", " labels)) = list_to_set (map lower labels).
Proof.
  intros Hall.
  assert (Hclean : Forall clean_phrase (map lower labels)).
  { apply Forall_forall. intros x Hx. apply list_elem_of_In, in_map_iff in Hx as (l & <- & Hl).
    apply survives_lower. rewrite Forall_forall in Hall. apply Hall.
    now apply list_elem_of_In. }
  destruct labels as [|l0 labels]; [reflexivity|].
  assert (Hne : map lower (l0 :: labels) <> []) by discriminate.
  unfold clean_extracted_skills.
  rewrite <- is_empty_lower, <- strip_lower, lower_join.
  change (lower ", ") with ", ".
  rewrite (strip_join_nonempty _ Hclean Hne).
  rewrite (replace_absent ";" ",");
    [|apply (contains_char_absent _ _ _ (join_chars _ Hclean)); reflexivity].
  rewrite (replace_absent " and " ", ") by apply (join_no_and _ Hclean Hne).
  rewrite (re_split_join _ Hclean Hne), (filter_keep_clean _ Hclean).
  now rewrite (map_cleanup_clean _ Hclean).
Qed.

End CleanJoin.

(* ================================================================== *)
(** ** The whitespace taken by the separators does not matter *)
(* ================================================================== *)

Section SeparatorWhitespace.

Implicit Types (s t : string) (c : ascii).

Lemma lstrip_rstrip s : lstrip (rstrip s) = rstrip (lstrip s).
Proof.
  induction s as [|a s IH]; [reflexivity|].
  cbn [lstrip rstrip]. destruct (isspace a) eqn:Ha; cbn [andb].
  - destruct (is_empty (rstrip s)) eqn:E.
    + apply is_empty_true in E. rewrite <- IH, E. reflexivity.
    + cbn [lstrip]. now rewrite Ha.
  - cbn [lstrip rstrip]. now rewrite Ha.
Qed.

Lemma strip_lstrip s : strip (lstrip s) = strip s.
Proof.
  unfold strip. f_equal.
  destruct (lstrip_head s) as [->|(c & s' & -> & Hc)]; [reflexivity|].
  now apply lstrip_nonspace.
Qed.

Lemma strip_rstrip s : strip (rstrip s) = strip s.
Proof. unfold strip. now rewrite lstrip_rstrip, rstrip_idem. Qed.

Lemma rstrip_decompose s :
  exists ws, forallb_str isspace ws = true /\ s = rstrip s ++ ws.
Proof.
  induction s as [|a s (ws & Hws & E)]; [now exists ""|].
  cbn [rstrip]. destruct (isspace a && is_empty (rstrip s)) eqn:C.
  - apply andb_true_iff in C as [Ha Hr]. apply is_empty_true in Hr.
    rewrite Hr in E. exists (String a s). split; [|reflexivity].
    simpl. rewrite Ha. simpl. now rewrite E.
  - exists ws. split; [exact Hws|].
    change (String a s = String a (rstrip s ++ ws)). now rewrite <- E.
Qed.

Lemma lstrip_decompose s :
  exists ws, forallb_str isspace ws = true /\ s = ws ++ lstrip s.
Proof.
  induction s as [|a s (ws & Hws & E)]; [now exists ""|].
  cbn [lstrip]. destruct (isspace a) eqn:Ha.
  - exists (String a ws). split; [simpl; now rewrite Ha|].
    change (String a s = String a (ws ++ lstrip s)). now rewrite <- E.
  - now exists "".
Qed.

Lemma delete_chars_app (p : ascii -> bool) s t :
  delete_chars p (s ++ t) = delete_chars p s ++ delete_chars p t.
Proof.
  induction s as [|a s IH]; [reflexivity|].
  change (delete_chars p (String a (s ++ t))
          = delete_chars p (String a s) ++ delete_chars p t).
  cbn [delete_chars]. rewrite IH. now destruct (p a).
Qed.

Lemma delete_chars_space ws :
  forallb_str isspace ws = true -> delete_chars not_skill_char ws = ws.
Proof.
  intros H. apply delete_chars_absent. eapply forallb_str_impl, H.
  intros c Hc. unfold not_skill_char. rewrite Hc, negb_involutive.
  now rewrite !orb_true_r.
Qed.

Lemma lstrip_app_space ws s : forallb_str isspace ws = true -> lstrip (ws ++ s) = lstrip s.
Proof.
  induction ws as [|a ws IH]; [reflexivity|]. intros H.
  cbn [forallb_str] in H. apply andb_true_iff in H as [Ha Hws].
  change (lstrip (String a (ws ++ s)) = lstrip s). cbn [lstrip].
  now rewrite Ha, IH.
Qed.

Lemma rstrip_space ws : forallb_str isspace ws = true -> rstrip ws = "".
Proof.
  induction ws as [|a ws IH]; [reflexivity|]. simpl. intros H.
  apply andb_true_iff in H as [Ha Hws]. now rewrite Ha, IH.
Qed.

Lemma rstrip_app_space s ws : forallb_str isspace ws = true -> rstrip (s ++ ws) = rstrip s.
Proof.
  intros H. induction s as [|a s IH]; [now apply rstrip_space|].
  change (rstrip (String a (s ++ ws)) = rstrip (String a s)).
  cbn [rstrip]. now rewrite IH.
Qed.

Lemma strip_app_space_l ws s : forallb_str isspace ws = true -> strip (ws ++ s) = strip s.
Proof. intros H. unfold strip. now rewrite lstrip_app_space. Qed.

Lemma strip_app_space_r s ws : forallb_str isspace ws = true -> strip (s ++ ws) = strip s.
Proof.
  intros H. unfold strip. rewrite <- !lstrip_rstrip. now rewrite rstrip_app_space.
Qed.

Lemma cleanup_lstrip s : cleanup (lstrip s) = cleanup s.
Proof.
  destruct (lstrip_decompose s) as (ws & Hws & E). unfold cleanup.
  rewrite E at 2. rewrite delete_chars_app, (delete_chars_space _ Hws).
  now rewrite strip_app_space_l.
Qed.

Lemma cleanup_rstrip s : cleanup (rstrip s) = cleanup s.
Proof.
  destruct (rstrip_decompose s) as (ws & Hws & E). unfold cleanup.
  rewrite E at 2. rewrite delete_chars_app, (delete_chars_space _ Hws).
  now rewrite strip_app_space_r.
Qed.

Lemma cleanup_strip s : cleanup (strip s) = cleanup s.
Proof. unfold strip. now rewrite cleanup_rstrip, cleanup_lstrip. Qed.

Lemma keep_candidate_strip s : keep_candidate (strip s) = keep_candidate s.
Proof. unfold keep_candidate. now rewrite strip_idem. Qed.

Lemma keep_candidate_lstrip s : keep_candidate (lstrip s) = keep_candidate s.
Proof. unfold keep_candidate. now rewrite strip_lstrip. Qed.

Lemma keep_candidate_rstrip s : keep_candidate (rstrip s) = keep_candidate s.
Proof. unfold keep_candidate. now rewrite strip_rstrip. Qed.

(** The candidate phrases are those of the plain pieces between commas:
    whether the separators take the whitespace around the commas or not
    makes no difference to the comprehension. *)
Lemma trim_pieces_irrelevant (pieces : list string) : forall first,
  map cleanup (List.filter keep_candidate (trim_pieces first pieces))
  = map cleanup (List.filter keep_candidate pieces).
Proof.
  induction pieces as [|x pieces IH]; intros first; [reflexivity|].
  destruct pieces as [|y pieces].
  - destruct first; [reflexivity|]. cbn [trim_pieces List.filter].
    rewrite keep_candidate_lstrip. destruct (keep_candidate x); [|reflexivity].
    simpl. now rewrite cleanup_lstrip.
  - change (trim_pieces first (x :: y :: pieces))
      with ((if first then rstrip x else strip x) :: trim_pieces false (y :: pieces)).
    cbn [List.filter].
    assert (Hk : keep_candidate (if first then rstrip x else strip x) = keep_candidate x).
    { destruct first; [apply keep_candidate_rstrip|apply keep_candidate_strip]. }
    assert (Hc : cleanup (if first then rstrip x else strip x) = cleanup x).
    { destruct first; [apply cleanup_rstrip|apply cleanup_strip]. }
    rewrite Hk. destruct (keep_candidate x); cbn [map]; rewrite ?Hc, (IH false);
      reflexivity.
Qed.

Lemma clean_extracted_skills_pieces (text : string) :
  is_empty (strip text) = false ->
  clean_extracted_skills (PyStr text)
  = list_to_set
      (map cleanup
         (List.filter keep_candidate
            (split_on is_comma (replace " and " ", " (replace ";" "," (lower text)))))).
Proof.
  intros H. unfold clean_extracted_skills. rewrite H. unfold re_split_commas.
  fold cleanup. now rewrite trim_pieces_irrelevant.
Qed.

End SeparatorWhitespace.

(* ================================================================== *)
(** ** Properties of the ontology mapper *)
(* ================================================================== *)

Section LookupTables.

Implicit Types (esco_df : list esco_row) (m : gmap string string).

Lemma unique_In (l : list string) x : In x (unique l) <-> In x l.
Proof.
  induction l as [|a l IH]; simpl; [tauto|].
  rewrite filter_In, IH. split.
  - intros [H|[H _]]; auto.
  - intros [H|H]; [now left|]. cbv beta.
    destruct (String.eqb x a) eqn:E.
    + apply String.eqb_eq in E. now left.
    + right. split; [exact H|reflexivity].
Qed.

(** A dict comprehension [{key(x): val(x) for x in l}] on top of [m]. *)
Lemma foldl_insert_lookup {A} (key val : A -> string) (l : list A) :
  forall m k v,
    foldl (fun m x => <[key x := val x]> m) m l !! k = Some v ->
    (exists x, In x l /\ key x = k /\ val x = v) \/ m !! k = Some v.
Proof.
  induction l as [|a l IH]; intros m k v; simpl; [now right|].
  intros H. apply IH in H as [(x & Hx & Hk & Hv)|H].
  - left. exists x. auto.
  - destruct (decide (key a = k)) as [Heq|Hne].
    + rewrite <- Heq, lookup_insert_eq in H. injection H as <-.
      left. exists a. auto.
    + rewrite lookup_insert_ne in H by exact Hne. now right.
Qed.

Lemma foldl_insert_mono {A} (key val : A -> string) (l : list A) :
  forall m k, is_Some (m !! k) ->
    is_Some (foldl (fun m x => <[key x := val x]> m) m l !! k).
Proof.
  induction l as [|a l IH]; intros m k H; simpl; [exact H|].
  apply IH. destruct (decide (key a = k)) as [<-|Hne].
  - rewrite lookup_insert_eq. eauto.
  - now rewrite lookup_insert_ne.
Qed.

Lemma foldl_insert_is_Some {A} (key val : A -> string) (l : list A) :
  forall m x, In x l ->
    is_Some (foldl (fun m x => <[key x := val x]> m) m l !! key x).
Proof.
  induction l as [|a l IH]; intros m x; simpl; [tauto|].
  intros [->|H]; [|now apply IH].
  apply foldl_insert_mono. rewrite lookup_insert_eq. eauto.
Qed.

Lemma pref_map_lookup esco_df k label :
  pref_map_of esco_df !! k = Some label ->
  In label (labels_of esco_df) /\ lower label = k.
Proof.
  unfold pref_map_of. intros H.
  apply (foldl_insert_lookup lower (fun l => l)) in H as [(x & Hx & Hk & Hv)|H].
  - subst. apply (proj1 (unique_In _ _)) in Hx. auto.
  - rewrite lookup_empty in H. discriminate.
Qed.

Lemma pref_map_is_Some esco_df label :
  In label (labels_of esco_df) -> is_Some (pref_map_of esco_df !! lower label).
Proof.
  intros H. unfold pref_map_of.
  apply (foldl_insert_is_Some lower (fun l => l)). apply (proj2 (unique_In _ _)), H.
Qed.

Lemma alt_map_lookup_gen esco_df : forall m k label,
  foldl (fun m row =>
           match altLabels row with
           | PyStr alts =>
               foldl (fun m alt => <[alt := preferredLabel row]> m) m (alt_labels alts)
           | _ => m
           end) m esco_df !! k = Some label ->
  (exists row alts, In row esco_df /\ altLabels row = PyStr alts
                    /\ In k (alt_labels alts) /\ preferredLabel row = label)
  \/ m !! k = Some label.
Proof.
  induction esco_df as [|row esco_df IH]; intros m k label; simpl; [now right|].
  intros H. apply IH in H as [(r & a & Hr & Ha & Hk & Hl)|H].
  - left. exists r, a. auto.
  - destruct (altLabels row) as [alts| |] eqn:Ea; try (now right).
    apply (foldl_insert_lookup (fun a => a) (fun _ => preferredLabel row)) in H
      as [(x & Hx & Hk & Hv)|H]; [|now right].
    subst. left. exists row, alts. auto.
Qed.

Lemma alt_map_lookup esco_df k label :
  alt_map_of esco_df !! k = Some label ->
  exists row alts, In row esco_df /\ altLabels row = PyStr alts
                   /\ In k (alt_labels alts) /\ preferredLabel row = label.
Proof.
  unfold alt_map_of. intros H.
  apply alt_map_lookup_gen in H as [H|H]; [exact H|].
  rewrite lookup_empty in H. discriminate.
Qed.

Lemma alt_map_mono esco_df : forall m k,
  is_Some (m !! k) ->
  is_Some (foldl (fun m row =>
           match altLabels row with
           | PyStr alts =>
               foldl (fun m alt => <[alt := preferredLabel row]> m) m (alt_labels alts)
           | _ => m
           end) m esco_df !! k).
Proof.
  induction esco_df as [|row esco_df IH]; intros m k H; simpl; [exact H|].
  apply IH. destruct (altLabels row); try exact H.
  now apply (foldl_insert_mono (fun a => a) (fun _ => preferredLabel row)).
Qed.

Lemma alt_map_is_Some esco_df row alts k :
  In row esco_df -> altLabels row = PyStr alts -> In k (alt_labels alts) ->
  is_Some (alt_map_of esco_df !! k).
Proof.
  unfold alt_map_of. generalize (∅ : gmap string string).
  induction esco_df as [|r esco_df IH]; intros m; simpl; [tauto|].
  intros [->|Hin] Ha Hk.
  - apply alt_map_mono. rewrite Ha.
    now apply (foldl_insert_is_Some (fun a => a) (fun _ => preferredLabel row)).
  - now apply IH.
Qed.

Lemma alt_labels_nonempty alts k : In k (alt_labels alts) -> k <> "".
Proof.
  unfold alt_labels. rewrite filter_In. intros [_ H] ->. discriminate.
Qed.

End LookupTables.

Section FuzzyMatch.

Variable scorer : string -> string -> nat.

Lemma extractOne_best query choices choice score :
  extractOne scorer query choices = Some (choice, score) ->
  In choice choices /\ score = scorer query choice
  /\ forall c, In c choices -> (scorer query c <= score)%nat.
Proof.
  revert choice score. induction choices as [|a rest IH]; intros choice score; simpl;
    [discriminate|].
  destruct (extractOne scorer query rest) as [[c' sc']|] eqn:E.
  - destruct (IH c' sc' eq_refl) as (Hin & Hsc & Hmax).
    destruct (sc' <=? scorer query a)%nat eqn:Hle; intros [= <- <-].
    + apply Nat.leb_le in Hle. repeat split; [now left|].
      intros c [<-|Hc]; [lia|]. specialize (Hmax c Hc). lia.
    + apply Nat.leb_gt in Hle. repeat split; [now right|exact Hsc|].
      intros c [<-|Hc]; [lia|]. now apply Hmax.
  - intros [= <- <-]. repeat split; [now left|].
    intros c [<-|Hc]; [lia|]. destruct rest; [destruct Hc|].
    simpl in E. destruct (extractOne scorer query rest) as [[? ?]|];
      [destruct (_ <=? _)%nat|]; discriminate.
Qed.

Lemma extractOne_is_Some query choices :
  choices <> [] -> is_Some (extractOne scorer query choices).
Proof.
  destruct choices as [|a rest]; [congruence|]. intros _. simpl.
  destruct (extractOne scorer query rest) as [[c' sc']|]; [|eauto].
  destruct (_ <=? _)%nat; eauto.
Qed.

Lemma extractOne_None query choices :
  extractOne scorer query choices = None -> choices = [].
Proof.
  intros H. destruct choices as [|a rest]; [reflexivity|].
  destruct (extractOne_is_Some query (a :: rest)) as [x Hx]; congruence.
Qed.

End FuzzyMatch.

Section MapToEsco.

Variable scorer : string -> string -> nat.
Variable esco_df : list esco_row.

Abbreviation pref_map := (pref_map_of esco_df).
Abbreviation alt_map := (alt_map_of esco_df).
Abbreviation esco_preferred_lower_list := (esco_preferred_lower_list_of esco_df).

Lemma label_row_filter choice :
  In choice esco_preferred_lower_list ->
  exists row rest,
    List.filter (fun row => String.eqb (lower (preferredLabel row)) choice) esco_df
    = row :: rest.
Proof.
  unfold esco_preferred_lower_list_of. rewrite in_map_iff. intros (r & Hr & Hin).
  destruct (List.filter _ esco_df) as [|row rest] eqn:E; [|eauto].
  exfalso. assert (H : In r []); [|destruct H].
  rewrite <- E. apply filter_In. split; [exact Hin|]. now apply String.eqb_eq.
Qed.

Lemma filter_head_label choice row rest :
  List.filter (fun row => String.eqb (lower (preferredLabel row)) choice) esco_df
  = row :: rest ->
  In (preferredLabel row) (labels_of esco_df) /\ lower (preferredLabel row) = choice.
Proof.
  intros E. assert (H : In row (row :: rest)) by now left.
  rewrite <- E in H. apply filter_In in H as [Hin Heq].
  split; [now apply in_map | now apply String.eqb_eq].
Qed.

(** Whatever list the fuzzy match searches, a label returned by
    [map_to_esco] with the tables of [esco_df] is a [preferredLabel]. *)
Lemma map_to_esco_label skill_name choices label :
  map_to_esco scorer esco_df skill_name pref_map alt_map choices = Some label ->
  In label (labels_of esco_df).
Proof.
  unfold map_to_esco.
  destruct (is_empty _); [discriminate|].
  destruct (pref_map !! _) as [l|] eqn:Ep.
  { intros [= <-]. now apply pref_map_lookup in Ep. }
  destruct (alt_map !! _) as [l|] eqn:Ea.
  { intros [= <-]. apply alt_map_lookup in Ea as (row & alts & Hr & _ & _ & <-).
    now apply in_map. }
  destruct (extractOne _ _ _) as [[choice score]|]; [|discriminate].
  destruct (60 <=? score)%nat; [|discriminate].
  destruct (List.filter _ esco_df) as [|row rest] eqn:E; [discriminate|].
  intros [= <-]. now apply filter_head_label in E.
Qed.

Lemma mapped_labels_In (s : gset string) label :
  In label (mapped_labels scorer esco_df s) <->
  label <> "" /\ exists x, x ∈ s /\
    map_to_esco scorer esco_df x pref_map alt_map esco_preferred_lower_list = Some label.
Proof.
  unfold mapped_labels, sorted.
  rewrite <- list_elem_of_In, merge_sort_Permutation, list_elem_of_In.
  rewrite filter_In, <- list_elem_of_In, list_elem_of_omap.
  rewrite negb_true_iff, is_empty_false.
  setoid_rewrite elem_of_elements. tauto.
Qed.

End MapToEsco.

(** *** Candidate phrases *)

(** What does hold of every candidate phrase: it has no whitespace at its
    ends and is made of the characters a-z, 0-9, whitespace, period,
    plus-sign, hash mark and hyphen. *)
Lemma candidate_shape (text : pyval) (phrase : string) :
  phrase ∈ clean_extracted_skills text ->
  strip phrase = phrase
  /\ forallb_str (fun c => negb (not_skill_char c)) phrase = true.
Proof.
  unfold clean_extracted_skills. destruct text as [t| |]; try (intros H; set_solver).
  destruct (is_empty (strip t)); [intros H; set_solver|].
  rewrite elem_of_list_to_set, list_elem_of_In, in_map_iff.
  intros (s & <- & _). split; [apply strip_idem|].
  apply forallb_str_strip, forallb_str_delete_chars.
Qed.

Lemma candidate_stripped (text : pyval) (phrase : string) :
  phrase ∈ clean_extracted_skills text -> strip phrase = phrase.
Proof. intros H. now apply candidate_shape in H. Qed.

(** C6 at a failing input. The condition of the comprehension is tested on
    the fragment before the punctuation is deleted, so the fragments "100%",
    "r!" and "!!" pass it and leave the purely numeric phrase "100", the
    one-character phrase "r" and the empty phrase in the candidate set. *)
Lemma candidates_checked_before_cleanup :
  clean_extracted_skills (PyStr "python, 100%, r!, !!")
  = {[ "python"; "100"; "r"; "" ]}.
Proof. vm_compute. reflexivity. Qed.

(** *** The mapped labels *)

(** C5. For every input, string or not, every label of the mapper's output
    is a [preferredLabel] of the ontology. *)
Theorem mapped_labels_are_canonical (scorer : string -> string -> nat)
    (esco_df : list esco_row) (extracted_skills_raw : pyval) (label : string) :
  In label (mapper scorer esco_df extracted_skills_raw) ->
  In label (labels_of esco_df).
Proof.
  unfold mapper. rewrite mapped_labels_In. intros (_ & x & _ & H).
  eapply map_to_esco_label, H.
Qed.

Lemma mapped_labels_are_canonical_witness :
  In "SQL" (mapper equality_scorer esco_fixture (PyStr "Python, SQL and Tableau"))
  /\ In "SQL" (labels_of esco_fixture).
Proof.
  assert (H : In "SQL" (mapper equality_scorer esco_fixture
                          (PyStr "Python, SQL and Tableau"))).
  { vm_compute. right. left. reflexivity. }
  split; [exact H|].
  exact (mapped_labels_are_canonical equality_scorer esco_fixture
           (PyStr "Python, SQL and Tableau") "SQL" H).
Defined.

(** The exact matches of [map_to_esco] on a phrase without whitespace at
    its ends, for any scorer and any list searched by the fuzzy match. *)
Lemma map_to_esco_exact_match (scorer : string -> string -> nat)
    (esco_df : list esco_row) (fuzzy_choices : list string) (phrase : string) :
  strip phrase = phrase ->
  let result := map_to_esco scorer esco_df phrase (pref_map_of esco_df)
                  (alt_map_of esco_df) fuzzy_choices in
  (forall label, In label (labels_of esco_df) -> label <> "" ->
     lower label = lower phrase ->
     exists label',
       result = Some label' /\ pref_map_of esco_df !! lower phrase = Some label'
       /\ In label' (labels_of esco_df) /\ lower label' = lower phrase)
  /\ ((forall label, In label (labels_of esco_df) -> lower label <> lower phrase) ->
      forall row alts,
        In row esco_df -> altLabels row = PyStr alts ->
        In (lower phrase) (alt_labels alts) ->
        exists row' alts',
          result = Some (preferredLabel row')
          /\ alt_map_of esco_df !! lower phrase = Some (preferredLabel row')
          /\ In row' esco_df /\ altLabels row' = PyStr alts'
          /\ In (lower phrase) (alt_labels alts')).
Proof.
  intros Hstrip result. subst result. unfold map_to_esco.
  rewrite strip_lower, Hstrip, is_empty_lower. split.
  - intros label Hin Hne Hlow.
    assert (He : is_empty phrase = false).
    { apply is_empty_false. intros ->. apply Hne, lower_empty, Hlow. }
    rewrite He.
    destruct (pref_map_is_Some esco_df label Hin) as [label' Hl].
    rewrite Hlow in Hl. rewrite Hl. exists label'.
    destruct (pref_map_lookup _ _ _ Hl) as [H1 H2]. auto.
  - intros Hnone row alts Hrow Halts Hk.
    assert (He : is_empty phrase = false).
    { apply is_empty_false. intros ->. now apply alt_labels_nonempty in Hk. }
    rewrite He.
    destruct (pref_map_of esco_df !! lower phrase) as [l|] eqn:Ep.
    { apply pref_map_lookup in Ep as [H1 H2]. destruct (Hnone l H1 H2). }
    destruct (alt_map_is_Some esco_df row alts _ Hrow Halts Hk) as [l Hl].
    rewrite Hl.
    destruct (alt_map_lookup _ _ _ Hl) as (row' & alts' & H1 & H2 & H3 & <-).
    exists row', alts'. auto.
Qed.

(** C2. Exact matches come first. Take a candidate phrase, that is a member
    of the set the cleaning produces for some input, and any scorer and any
    list for the fuzzy match. If the phrase equals a (non-empty) canonical
    label up to case, [map_to_esco] returns a canonical label equal to the
    phrase up to case, the one [pref_map] holds, whether or not the phrase
    is also an alternate label. If it equals no canonical label up to case
    but is an alternate label of some row, [map_to_esco] returns the
    canonical label of a row that has this alternate label, the one
    [alt_map] holds. Neither result depends on the scorer or on the list
    searched by the fuzzy match. *)
Theorem exact_match_precedence (scorer : string -> string -> nat)
    (esco_df : list esco_row) (fuzzy_choices : list string)
    (extracted_skills_raw : pyval) (phrase : string) :
  phrase ∈ clean_extracted_skills extracted_skills_raw ->
  let result := map_to_esco scorer esco_df phrase (pref_map_of esco_df)
                  (alt_map_of esco_df) fuzzy_choices in
  (forall label, In label (labels_of esco_df) -> label <> "" ->
     lower label = lower phrase ->
     exists label',
       result = Some label' /\ pref_map_of esco_df !! lower phrase = Some label'
       /\ In label' (labels_of esco_df) /\ lower label' = lower phrase)
  /\ ((forall label, In label (labels_of esco_df) -> lower label <> lower phrase) ->
      forall row alts,
        In row esco_df -> altLabels row = PyStr alts ->
        In (lower phrase) (alt_labels alts) ->
        exists row' alts',
          result = Some (preferredLabel row')
          /\ alt_map_of esco_df !! lower phrase = Some (preferredLabel row')
          /\ In row' esco_df /\ altLabels row' = PyStr alts'
          /\ In (lower phrase) (alt_labels alts')).
Proof.
  intros Hcand. apply map_to_esco_exact_match.
  now apply (candidate_stripped extracted_skills_raw).
Qed.

Lemma exact_match_precedence_witness :
  exists label',
    map_to_esco equality_scorer esco_fixture "sql" (pref_map_of esco_fixture)
      (alt_map_of esco_fixture) [] = Some label'
    /\ pref_map_of esco_fixture !! lower "sql" = Some label'
    /\ In label' (labels_of esco_fixture) /\ lower label' = lower "sql".
Proof.
  assert (Hcand : "sql" ∈ clean_extracted_skills (PyStr "Python, SQL and Tableau")).
  { vm_compute. reflexivity. }
  apply (proj1 (exact_match_precedence equality_scorer esco_fixture []
                  (PyStr "Python, SQL and Tableau") "sql" Hcand) "SQL").
  - simpl. auto.
  - discriminate.
  - reflexivity.
Defined.

(** C3. The threshold of the fuzzy match. Take a phrase whose cleaned form
    [skill] has no exact match in [pref_map] or [alt_map]. A label that
    [map_to_esco] returns is the canonical label of a lower-cased label of
    maximal score, and that score is at least 60. If every lower-cased
    canonical label scores below 60, [map_to_esco] returns nothing and the
    phrase adds nothing to the mapped labels. If a non-empty [skill] has a
    lower-cased canonical label scoring 60 or more, a label is returned. *)
Theorem fuzzy_acceptance_threshold (scorer : string -> string -> nat)
    (esco_df : list esco_row) (phrase : string) :
  let skill := strip (lower phrase) in
  let choices := esco_preferred_lower_list_of esco_df in
  let result := map_to_esco scorer esco_df phrase (pref_map_of esco_df)
                  (alt_map_of esco_df) choices in
  pref_map_of esco_df !! skill = None -> alt_map_of esco_df !! skill = None ->
  (forall label, result = Some label ->
     exists choice,
       In choice choices /\ lower label = choice /\ In label (labels_of esco_df)
       /\ (60 <= scorer skill choice)%nat
       /\ forall c, In c choices -> (scorer skill c <= scorer skill choice)%nat)
  /\ ((forall c, In c choices -> (scorer skill c < 60)%nat) ->
      result = None /\ mapped_labels scorer esco_df {[ phrase ]} = [])
  /\ (skill <> "" ->
      forall c, In c choices -> (60 <= scorer skill c)%nat ->
      exists label, result = Some label).
Proof.
  intros skill choices result Hp Ha.
  assert (Hres : result =
    if is_empty skill then None
    else match extractOne scorer skill choices with
         | Some (choice, score) =>
             if (60 <=? score)%nat then
               match List.filter (fun row => String.eqb (lower (preferredLabel row)) choice)
                                 esco_df with
               | row :: _ => Some (preferredLabel row)
               | [] => None
               end
             else None
         | None => None
         end).
  { subst result. unfold map_to_esco. fold skill. now rewrite Hp, Ha. }
  split; [|split].
  - intros label. rewrite Hres.
    destruct (is_empty skill); [discriminate|].
    destruct (extractOne scorer skill choices) as [[choice score]|] eqn:E; [|discriminate].
    destruct (60 <=? score)%nat eqn:H60; [|discriminate].
    destruct (List.filter _ esco_df) as [|row rest] eqn:F; [discriminate|].
    intros [= <-]. apply extractOne_best in E as (Hin & -> & Hmax).
    apply filter_head_label in F as [Hl Hc]. apply Nat.leb_le in H60.
    exists choice. auto.
  - intros Hall.
    assert (Hnone : result = None).
    { rewrite Hres. destruct (is_empty skill); [reflexivity|].
      destruct (extractOne scorer skill choices) as [[choice score]|] eqn:E; [|reflexivity].
      apply extractOne_best in E as (Hin & -> & _).
      specialize (Hall choice Hin).
      destruct (60 <=? scorer skill choice)%nat eqn:H60; [|reflexivity].
      apply Nat.leb_le in H60. lia. }
    split; [exact Hnone|].
    unfold mapped_labels. rewrite elements_singleton. cbn [omap list_omap].
    fold choices. fold result. now rewrite Hnone.
  - intros Hne c Hc H60. rewrite Hres.
    apply is_empty_false in Hne. rewrite Hne.
    destruct (extractOne scorer skill choices) as [[choice score]|] eqn:E.
    + apply extractOne_best in E as (Hin & -> & Hmax).
      specialize (Hmax c Hc).
      assert (H' : (60 <=? scorer skill choice)%nat = true) by (apply Nat.leb_le; lia).
      rewrite H'. destruct (label_row_filter esco_df choice Hin) as (row & rest & ->).
      eauto.
    + apply extractOne_None in E. rewrite E in Hc. destruct Hc.
Qed.

Lemma fuzzy_acceptance_threshold_witness :
  map_to_esco equality_scorer esco_fixture "tableau" (pref_map_of esco_fixture)
    (alt_map_of esco_fixture) (esco_preferred_lower_list_of esco_fixture) = None
  /\ mapped_labels equality_scorer esco_fixture {[ "tableau" ]} = [].
Proof.
  apply (proj1 (proj2 (fuzzy_acceptance_threshold equality_scorer esco_fixture "tableau"
                         eq_refl eq_refl))).
  intros c Hc. simpl in Hc.
  destruct Hc as [<-|[<-|[<-|[]]]]; vm_compute; lia.
Defined.

Section Idempotence.

Variable scorer : string -> string -> nat.
Variable esco_df : list esco_row.

Lemma mapper_In_labels (extracted_skills_raw : pyval) (label : string) :
  In label (mapper scorer esco_df extracted_skills_raw) ->
  In label (labels_of esco_df).
Proof.
  unfold mapper. rewrite mapped_labels_In. intros (_ & x & _ & H).
  eapply map_to_esco_label, H.
Qed.

(** A label that survives the cleaning and is the only one of its spelling
    up to case is found again by the exact match on its lower-cased form. *)
Lemma map_to_esco_exact (label : string) (choices : list string) :
  In label (labels_of esco_df) ->
  survives_cleaning label = true ->
  (forall l', In l' (labels_of esco_df) -> lower l' = lower label -> l' = label) ->
  map_to_esco scorer esco_df (lower label) (pref_map_of esco_df) (alt_map_of esco_df)
    choices = Some label.
Proof.
  intros Hin Hs Huniq. pose proof (survives_lower label Hs) as Hc.
  unfold map_to_esco. rewrite lower_idem, (cp_stripped _ Hc).
  destruct (clean_phrase_head _ Hc) as (c & x' & E & _). rewrite E. cbn [is_empty].
  rewrite <- E.
  destruct (pref_map_is_Some esco_df label Hin) as [l' Hl']. rewrite Hl'.
  apply pref_map_lookup in Hl' as [H1 H2]. now rewrite (Huniq l' H1 H2).
Qed.

Lemma survives_nonempty (label : string) : survives_cleaning label = true -> label <> "".
Proof. intros H ->. discriminate H. Qed.

End Idempotence.

(** C4, as the code has it. Take the labels the mapper produces for an
    input and suppose that each of them survives the cleaning (no whitespace
    at its ends, more than one character, not purely numeric, only letters
    a-z in either case, digits, whitespace, periods, plus-signs, hash marks
    and hyphens, no [" and "] inside and no ["and "] at its start) and that
    no other canonical label equals it up to case. Then running the mapper
    on the comma-joined labels yields the same set of labels. *)
Theorem mapper_idempotent_on_surviving_labels (scorer : string -> string -> nat)
    (esco_df : list esco_row) (extracted_skills_raw : pyval) :
  let first := mapper scorer esco_df extracted_skills_raw in
  let output := mapped_skills_str scorer esco_df
                  (clean_extracted_skills extracted_skills_raw) in
  Forall (fun l => survives_cleaning l = true) first ->
  Forall (fun l => forall l', In l' (labels_of esco_df) -> lower l' = lower l -> l' = l)
         first ->
  (list_to_set (mapper scorer esco_df (PyStr output)) : gset string) = list_to_set first.
Proof.
  intros first output Hs Hu. subst output. unfold mapped_skills_str.
  fold (mapper scorer esco_df extracted_skills_raw). fold first.
  rewrite Forall_forall in Hu. pose proof Hs as Hs'. rewrite Forall_forall in Hs'.
  apply set_eq. intros label.
  rewrite !elem_of_list_to_set, !list_elem_of_In.
  unfold mapper at 1. rewrite (clean_join_labels first Hs), mapped_labels_In.
  split.
  - intros (_ & x & Hx & Hmap).
    apply elem_of_list_to_set, list_elem_of_In, in_map_iff in Hx as (l & <- & Hl).
    rewrite (map_to_esco_exact scorer esco_df l) in Hmap.
    + now injection Hmap as <-.
    + apply (mapper_In_labels scorer esco_df extracted_skills_raw), Hl.
    + apply Hs'. now apply list_elem_of_In.
    + apply Hu. now apply list_elem_of_In.
  - intros Hl. split.
    + apply survives_nonempty, Hs'. now apply list_elem_of_In.
    + exists (lower label). split.
      * apply elem_of_list_to_set, list_elem_of_In, in_map, Hl.
      * apply map_to_esco_exact.
        -- apply (mapper_In_labels scorer esco_df extracted_skills_raw), Hl.
        -- apply Hs'. now apply list_elem_of_In.
        -- apply Hu. now apply list_elem_of_In.
Qed.

Lemma mapper_idempotent_on_surviving_labels_witness :
  (list_to_set
     (mapper equality_scorer esco_fixture
        (PyStr (mapped_skills_str equality_scorer esco_fixture
                  (clean_extracted_skills (PyStr "SQL; data analytics")))))
   : gset string)
  = list_to_set (mapper equality_scorer esco_fixture (PyStr "SQL; data analytics")).
Proof.
  apply (mapper_idempotent_on_surviving_labels equality_scorer esco_fixture
           (PyStr "SQL; data analytics")).
  - change (Forall (fun l => survives_cleaning l = true) ["SQL"; "data analysis"]).
    repeat constructor.
  - change (Forall (fun l => forall l', In l' (labels_of esco_fixture) ->
                                lower l' = lower l -> l' = l) ["SQL"; "data analysis"]).
    repeat constructor; intros l' [<-|[<-|[<-|[]]]] H;
      first [reflexivity | discriminate H].
Defined.

(** C4 fails as stated. With the ontology [conjunction_fixture] the phrase
    "probability theory" is mapped, by its alternate label, to "statistics
    and probability"; the cleaning splits that output at the conjunction,
    and the second run maps the half "statistics" to the label
    "statistics": the set of labels has changed. *)
Lemma mapper_not_idempotent :
  mapper equality_scorer conjunction_fixture (PyStr "probability theory")
  = ["statistics and probability"]
  /\ mapped_skills_str equality_scorer conjunction_fixture
       (clean_extracted_skills (PyStr "probability theory"))
     = "statistics and probability"
  /\ mapper equality_scorer conjunction_fixture (PyStr "statistics and probability")
     = ["statistics"]
  /\ (list_to_set (mapper equality_scorer conjunction_fixture
                     (PyStr "statistics and probability")) : gset string)
     <> list_to_set (mapper equality_scorer conjunction_fixture
                       (PyStr "probability theory")).
Proof.
  repeat split; try (vm_compute; reflexivity).
  intros H.
  apply (f_equal (fun s : gset string => bool_decide ("statistics" ∈ s))) in H.
  vm_compute in H. discriminate H.
Qed.

(** The same holds with any scorer: the half "statistics" has an exact
    match, so the second run always contains a label the first did not. *)
Lemma conjunction_split_any_scorer (scorer : string -> string -> nat) :
  mapper scorer conjunction_fixture (PyStr "probability theory")
  = ["statistics and probability"]
  /\ In "statistics"
        (mapper scorer conjunction_fixture (PyStr "statistics and probability")).
Proof.
  split; [reflexivity|].
  unfold mapper. apply mapped_labels_In. split; [discriminate|].
  exists "statistics". split; [|reflexivity].
  vm_compute. reflexivity.
Qed.


(* ================================================================== *)
(** ** Malformed input *)
(* ================================================================== *)

Section MalformedInput.

Lemma lstrip_empty_all_space (s : string) :
  lstrip s = "" <-> forallb_str isspace s = true.
Proof.
  induction s as [|a s IH]; simpl; [tauto|].
  destruct (isspace a); simpl; [exact IH|]. split; discriminate.
Qed.

Lemma strip_empty_all_space (s : string) :
  strip s = "" <-> forallb_str isspace s = true.
Proof.
  rewrite <- lstrip_empty_all_space. unfold strip. split.
  - intros H. destruct (lstrip_head s) as [E|(c & s' & E & Hc)]; [exact E|].
    rewrite E, (rstrip_nonspace _ _ Hc) in H. discriminate.
  - now intros ->.
Qed.

Lemma Text_Clean_blank (Text : string) : strip Text = "" -> Text_Clean_str Text = "".
Proof.
  rewrite strip_empty_all_space. intros H. unfold Text_Clean_str.
  apply strip_empty_all_space.
  apply forallb_str_sub_runs; [reflexivity|]. intros c Hc _. revert c Hc.
  apply forallb_str_In, forallb_str_sub_each; [reflexivity|].
  apply forallb_str_sub_runs; [reflexivity|]. intros c Hc _. revert c Hc.
  apply forallb_str_In. rewrite forallb_str_lower.
  eapply forallb_str_impl, H. intros c Hc. now rewrite isspace_lower_char.
Qed.

Lemma clean_malformed (v : pyval) : malformed v -> clean_extracted_skills v = ∅.
Proof.
  destruct v as [s| |]; try reflexivity.
  simpl. intros ->. reflexivity.
Qed.

Lemma mapped_labels_empty scorer esco_df : mapped_labels scorer esco_df ∅ = [].
Proof. unfold mapped_labels. now rewrite elements_empty. Qed.

End MalformedInput.

(** On one cell of a column of dtype [object]: an input that is not a string
    gives the missing value [NaN], a blank string the empty string; the
    cleaning gives the empty set and the mapper no label. *)
Lemma malformed_cell (scorer : string -> string -> nat)
    (esco_df : list esco_row) (v : pyval) :
  malformed v ->
  Text_Clean v = match v with PyStr _ => PyStr "" | _ => PyNaN end
  /\ clean_extracted_skills v = ∅
  /\ mapper scorer esco_df v = []
  /\ mapped_skills_str scorer esco_df (clean_extracted_skills v) = "".
Proof.
  intros H. pose proof (clean_malformed v H) as Hc.
  split; [|split; [exact Hc|split]].
  - destruct v as [s| |]; try reflexivity.
    rewrite Text_Clean_PyStr. f_equal. now apply Text_Clean_blank.
  - unfold mapper. rewrite Hc. apply mapped_labels_empty.
  - unfold mapped_skills_str. rewrite Hc, mapped_labels_empty. reflexivity.
Qed.

Section CheckedCalls.

(** The guard of [clean_extracted_skills] keeps every method call on a
    string: the cleaning raises on no input. *)
Lemma clean_extracted_skills_never_raises (text : pyval) :
  clean_extracted_skills_checked text = inr (clean_extracted_skills text).
Proof.
  destruct text as [t| |]; try reflexivity.
  unfold clean_extracted_skills_checked, clean_extracted_skills.
  cbn [is_str negb call_strip call_lower].
  now destruct (is_empty (strip t)).
Qed.

Lemma mapped_skills_str_never_raises (scorer : string -> string -> nat)
    (esco_df : list esco_row) (text : pyval) :
  mapped_skills_str_checked scorer esco_df text
  = inr (mapped_skills_str scorer esco_df (clean_extracted_skills text)).
Proof.
  unfold mapped_skills_str_checked. now rewrite clean_extracted_skills_never_raises.
Qed.

Lemma lookup_map {A B} (f : A -> B) (l : list A) : forall (i : nat) (x : A),
  l !! i = Some x -> map f l !! i = Some (f x).
Proof.
  induction l as [|a l IH]; intros i x; [discriminate|].
  destruct i as [|i]; cbn; [now intros [= ->]|apply IH].
Qed.

End CheckedCalls.

(** C7, as the code has it. Take a cell that is not a string or is an empty
    (or blank) string. The mapper recovers: its cleaning returns the empty
    set and its mapped string is empty, and neither raises. The normalizer
    does so only for a string: a blank string gives the empty string, but a
    cell that is not a string gives the missing value [NaN] when the column
    holds a string, and when the column holds no string the normalizer
    raises [AttributeError]. *)
Theorem malformed_input_outcomes (scorer : string -> string -> nat)
    (esco_df : list esco_row) (column : list pyval) (i : nat) (v : pyval) :
  column !! i = Some v ->
  malformed v ->
  match Text_Clean_column column with
  | inr out =>
      existsb is_str column = true
      /\ out !! i = Some (match v with PyStr _ => PyStr "" | _ => PyNaN end)
  | inl x => existsb is_str column = false /\ x = AttributeError
  end
  /\ clean_extracted_skills_checked v = inr ∅
  /\ mapped_skills_str_checked scorer esco_df v = inr "".
Proof.
  intros Hi Hv. destruct (malformed_cell scorer esco_df v Hv) as (Ht & Hc & _ & Hm).
  split; [|split].
  - unfold Text_Clean_column, object_dtype.
    destruct column as [|c column]; [discriminate Hi|].
    destruct (existsb is_str (c :: column)); [|now split].
    split; [reflexivity|]. rewrite <- Ht. now apply lookup_map.
  - now rewrite clean_extracted_skills_never_raises, Hc.
  - now rewrite mapped_skills_str_never_raises, Hm.
Qed.

Lemma malformed_input_outcomes_witness :
  match Text_Clean_column [PyStr "Python 3"; PyNaN] with
  | inr out =>
      existsb is_str [PyStr "Python 3"; PyNaN] = true /\ out !! 1%nat = Some PyNaN
  | inl x => existsb is_str [PyStr "Python 3"; PyNaN] = false /\ x = AttributeError
  end
  /\ clean_extracted_skills_checked PyNaN = inr ∅
  /\ mapped_skills_str_checked equality_scorer esco_fixture PyNaN = inr "".
Proof.
  apply (malformed_input_outcomes equality_scorer esco_fixture
           [PyStr "Python 3"; PyNaN] 1 PyNaN).
  - reflexivity.
  - exact I.
Defined.

(** C7 fails as stated. On a column that holds no string the normalizer
    raises [AttributeError]: the failure is propagated. On a column that
    holds a string, the cell that is not a string becomes the missing value
    [NaN], which is not the empty string a blank cell becomes. *)
Lemma normalizer_fails_on_non_string :
  Text_Clean_column [PyNaN; PyInt 7] = inl AttributeError
  /\ Text_Clean_column [PyStr "Python 3"; PyNaN; PyStr "  "]
     = inr [PyStr "python"; PyNaN; PyStr ""].
Proof. split; vm_compute; reflexivity. Qed.
(* ================================================================== *)
(** ** Properties of the evaluator *)
(* ================================================================== *)

Section EvaluatorFacts.

Lemma size_inter_diff (A B : gset string) : (size (A ∩ B) + size (A ∖ B) = size A)%nat.
Proof.
  rewrite <- size_union.
  - f_equal. apply set_eq. intros x.
    rewrite elem_of_union, elem_of_intersection, elem_of_difference.
    destruct (decide (x ∈ B)); tauto.
  - intros x. rewrite elem_of_intersection, elem_of_difference. tauto.
Qed.

Lemma size_inter_comm (A B : gset string) : size (A ∩ B) = size (B ∩ A).
Proof. f_equal. apply set_eq. intros x. rewrite !elem_of_intersection. tauto. Qed.

Lemma Qnat_pos n : (0 < n)%nat -> (0 < Qnat n)%Q.
Proof.
  intros H. unfold Qnat, Qlt. simpl. lia.
Qed.

Lemma Qnat_nonneg n : (0 <= Qnat n)%Q.
Proof. unfold Qnat, Qle. simpl. lia. Qed.

Lemma Qnat_le a b : (a <= b)%nat -> (Qnat a <= Qnat b)%Q.
Proof. intros H. unfold Qnat, Qle. simpl. lia. Qed.

Lemma ratio_bounds a b : (0 < b)%nat -> (a <= b)%nat ->
  (0 <= Qnat a / Qnat b /\ Qnat a / Qnat b <= 1)%Q.
Proof.
  intros Hb Hab. pose proof (Qnat_pos b Hb) as Hpos.
  split.
  - apply Qle_shift_div_l; [exact Hpos|]. rewrite Qmult_0_l. apply Qnat_nonneg.
  - apply Qle_shift_div_r; [exact Hpos|]. rewrite Qmult_1_l. now apply Qnat_le.
Qed.

Lemma ratio_pos a b : (0 < a)%nat -> (0 < b)%nat -> (0 < Qnat a / Qnat b)%Q.
Proof.
  intros Ha Hb. apply Qlt_shift_div_l; [now apply Qnat_pos|].
  rewrite Qmult_0_l. now apply Qnat_pos.
Qed.

Lemma ratio_zero b : (Qnat 0 / Qnat b == 0)%Q.
Proof. unfold Qdiv. unfold Qnat at 1. simpl. apply Qmult_0_l. Qed.

Lemma Qgtb_true a b : Qgtb a b = true <-> (b < a)%Q.
Proof.
  unfold Qgtb. rewrite negb_true_iff. split.
  - intros H. apply Qnot_le_lt. intros Hle. apply Qle_bool_iff in Hle. congruence.
  - intros H. destruct (Qle_bool a b) eqn:E; [|reflexivity].
    apply Qle_bool_iff in E. exfalso. apply (Qlt_not_le _ _ H E).
Qed.

Lemma Qgtb_false a b : Qgtb a b = false <-> (a <= b)%Q.
Proof.
  unfold Qgtb. rewrite negb_false_iff. apply Qle_bool_iff.
Qed.

Lemma precision_eq (M E : gset string) :
  precision_of (calculate_metrics E M) =
  if (0 <? size M)%nat then (Qnat (size (M ∩ E)) / Qnat (size M))%Q else 0%Q.
Proof.
  unfold calculate_metrics, precision_of. cbn [fst snd].
  now rewrite size_inter_diff.
Qed.

Lemma recall_eq (M E : gset string) :
  recall_of (calculate_metrics E M) =
  if (0 <? size E)%nat then (Qnat (size (M ∩ E)) / Qnat (size E))%Q else 0%Q.
Proof.
  unfold calculate_metrics, recall_of. cbn [fst snd].
  rewrite (size_inter_comm M E). now rewrite size_inter_diff.
Qed.

Lemma f1_eq (M E : gset string) :
  let p := precision_of (calculate_metrics E M) in
  let r := recall_of (calculate_metrics E M) in
  f1_of (calculate_metrics E M) =
  if Qgtb (p + r) 0 then (2 * (p * r) / (p + r))%Q else 0%Q.
Proof. reflexivity. Qed.

Lemma inter_size_le_l (M E : gset string) : (size (M ∩ E) <= size M)%nat.
Proof. apply subseteq_size. apply intersection_subseteq_l. Qed.

Lemma inter_size_le_r (M E : gset string) : (size (M ∩ E) <= size E)%nat.
Proof. apply subseteq_size. apply intersection_subseteq_r. Qed.

Lemma precision_bounds (M E : gset string) :
  (0 <= precision_of (calculate_metrics E M) <= 1)%Q.
Proof.
  rewrite precision_eq. destruct (0 <? size M)%nat eqn:H.
  - apply Nat.ltb_lt in H. apply ratio_bounds; [exact H|apply inter_size_le_l].
  - split; [apply Qle_refl | discriminate].
Qed.

Lemma recall_bounds (M E : gset string) :
  (0 <= recall_of (calculate_metrics E M) <= 1)%Q.
Proof.
  rewrite recall_eq. destruct (0 <? size E)%nat eqn:H.
  - apply Nat.ltb_lt in H. apply ratio_bounds; [exact H|apply inter_size_le_r].
  - split; [apply Qle_refl | discriminate].
Qed.

Lemma harmonic_bounds (p r : Q) :
  (0 <= p <= 1)%Q -> (0 <= r <= 1)%Q -> (0 < p + r)%Q ->
  (0 <= 2 * (p * r) / (p + r) <= 1)%Q.
Proof.
  intros [Hp0 Hp1] [Hr0 Hr1] Hs. split.
  - apply Qle_shift_div_l; [exact Hs|]. nra.
  - apply Qle_shift_div_r; [exact Hs|]. nra.
Qed.

(** C10. For every ground-truth set and predicted set, the precision, the
    recall and the F1 score that [calculate_metrics] returns all lie
    between 0 and 1 inclusive. *)
Theorem metrics_between_0_and_1 (gt_set pred_set : gset string) :
  let m := calculate_metrics gt_set pred_set in
  (0 <= precision_of m <= 1)%Q /\ (0 <= recall_of m <= 1)%Q /\ (0 <= f1_of m <= 1)%Q.
Proof.
  intros m. subst m.
  pose proof (precision_bounds pred_set gt_set) as Hp.
  pose proof (recall_bounds pred_set gt_set) as Hr.
  repeat split; try tauto.
  - rewrite f1_eq. cbv zeta.
    destruct (Qgtb _ 0) eqn:Hg; [|apply Qle_refl].
    apply Qgtb_true in Hg. now apply harmonic_bounds.
  - rewrite f1_eq. cbv zeta.
    destruct (Qgtb _ 0) eqn:Hg; [|discriminate].
    apply Qgtb_true in Hg. now apply harmonic_bounds.
Qed.

(** C1. The metrics of the evaluator. For every mapped set [M] and expected
    set [E]: precision is |M n E| / |M|, and 0 when [M] is empty; recall is
    |M n E| / |E|, and 0 when [E] is empty; F1 is 0 when precision and recall
    are both 0 and their harmonic mean 2 / (1/p + 1/r) otherwise (both are
    then positive). For M = {python, sql} and E = {python, r} the three
    values are 1/2. *)
Theorem evaluator_metric_definitions :
  (forall M E : gset string,
     let m := calculate_metrics E M in
     (precision_of m ==
        if decide (size M = 0%nat) then 0 else Qnat (size (M ∩ E)) / Qnat (size M))%Q
     /\ (recall_of m ==
        if decide (size E = 0%nat) then 0 else Qnat (size (M ∩ E)) / Qnat (size E))%Q
     /\ ((precision_of m == 0 /\ recall_of m == 0 /\ f1_of m == 0)%Q
         \/ (0 < precision_of m /\ 0 < recall_of m
             /\ f1_of m == 2 / (/ precision_of m + / recall_of m))%Q))
  /\ (let m := calculate_metrics expected_ex mapped_ex in
      (precision_of m == 1 # 2 /\ recall_of m == 1 # 2 /\ f1_of m == 1 # 2)%Q).
Proof.
  split.
  - intros M E m. subst m.
    assert (HP : (precision_of (calculate_metrics E M) ==
        if decide (size M = 0%nat) then 0 else Qnat (size (M ∩ E)) / Qnat (size M))%Q).
    { rewrite precision_eq. destruct (decide (size M = 0%nat)) as [H0|H0].
      - rewrite H0. reflexivity.
      - assert (H : (0 <? size M)%nat = true) by (apply Nat.ltb_lt; lia).
        rewrite H. reflexivity. }
    assert (HR : (recall_of (calculate_metrics E M) ==
        if decide (size E = 0%nat) then 0 else Qnat (size (M ∩ E)) / Qnat (size E))%Q).
    { rewrite recall_eq. destruct (decide (size E = 0%nat)) as [H0|H0].
      - rewrite H0. reflexivity.
      - assert (H : (0 <? size E)%nat = true) by (apply Nat.ltb_lt; lia).
        rewrite H. reflexivity. }
    split; [exact HP|]. split; [exact HR|].
    rewrite f1_eq. cbv zeta.
    pose proof (inter_size_le_l M E) as HlM. pose proof (inter_size_le_r M E) as HlE.
    destruct (Nat.eq_dec (size (M ∩ E)) 0) as [Htp|Htp].
    + left.
      assert (Hp0 : (precision_of (calculate_metrics E M) == 0)%Q).
      { rewrite precision_eq, Htp. destruct (0 <? size M)%nat; [apply ratio_zero|reflexivity]. }
      assert (Hr0 : (recall_of (calculate_metrics E M) == 0)%Q).
      { rewrite recall_eq, Htp. destruct (0 <? size E)%nat; [apply ratio_zero|reflexivity]. }
      split; [exact Hp0|]. split; [exact Hr0|].
      destruct (Qgtb _ 0) eqn:Hg; [|reflexivity].
      apply Qgtb_true in Hg. rewrite Hp0, Hr0 in Hg. exfalso. revert Hg. apply Qlt_irrefl.
    + right.
      assert (Hp : (0 < precision_of (calculate_metrics E M))%Q).
      { rewrite precision_eq.
        assert (H : (0 <? size M)%nat = true) by (apply Nat.ltb_lt; lia).
        rewrite H. apply ratio_pos; lia. }
      assert (Hr : (0 < recall_of (calculate_metrics E M))%Q).
      { rewrite recall_eq.
        assert (H : (0 <? size E)%nat = true) by (apply Nat.ltb_lt; lia).
        rewrite H. apply ratio_pos; lia. }
      split; [exact Hp|]. split; [exact Hr|].
      assert (Hs : (0 < precision_of (calculate_metrics E M)
                        + recall_of (calculate_metrics E M))%Q) by lra.
      apply Qgtb_true in Hs. rewrite Hs.
      apply Qgtb_true in Hs.
      field. repeat split; lra.
  - vm_compute. repeat split.
Qed.
End EvaluatorFacts.

(* ================================================================== *)
(** ** Further properties of the text normalizer *)
(* ================================================================== *)

Section NormalizerShape.

Implicit Types (s : string) (c : ascii) (p : ascii -> bool).

Lemma sub_runs_absent p b s :
  forallb_str (fun c => negb (p c)) s = true -> sub_runs p b s = s.
Proof.
  revert b. induction s as [|a s IH]; intros b; simpl; [reflexivity|].
  intros H. apply andb_true_iff in H as [Ha Hs]. apply negb_true_iff in Ha.
  now rewrite Ha, IH.
Qed.

Lemma sub_each_absent p s :
  forallb_str (fun c => negb (p c)) s = true -> sub_each p s = s.
Proof.
  induction s as [|a s IH]; simpl; [reflexivity|].
  intros H. apply andb_true_iff in H as [Ha Hs]. apply negb_true_iff in Ha.
  now rewrite Ha, IH.
Qed.

Lemma sub_runs_spaced s : forall b, spaced b s = true -> sub_runs isspace b s = s.
Proof.
  induction s as [|a s IH]; intros b; simpl; [reflexivity|].
  destruct (isspace a) eqn:Ha.
  - intros H. apply andb_true_iff in H as [H Hs]. apply andb_true_iff in H as [Hb Heq].
    apply negb_true_iff in Hb. apply Ascii.eqb_eq in Heq. subst.
    now rewrite IH.
  - intros H. now rewrite IH.
Qed.

Lemma lower_fixed s :
  forallb_str (fun c => Ascii.eqb (lower_char c) c) s = true -> lower s = s.
Proof.
  induction s as [|a s IH]; simpl; [reflexivity|].
  intros H. apply andb_true_iff in H as [Ha Hs]. apply Ascii.eqb_eq in Ha.
  now rewrite Ha, IH.
Qed.

Lemma forallb_str_lower_fixed s :
  forallb_str (fun c => Ascii.eqb (lower_char c) c) (lower s) = true.
Proof.
  induction s as [|a s IH]; simpl; [reflexivity|].
  rewrite lower_char_idem, IH, andb_true_r. apply Ascii.eqb_refl.
Qed.

Lemma forallb_str_sub_each_absent (p q : ascii -> bool) s :
  p " "%char = true ->
  (forall c, In c (list_ascii_of_string s) -> q c = false -> p c = true) ->
  forallb_str p (sub_each q s) = true.
Proof.
  intros Hsp. induction s as [|a s IH]; intros H; [reflexivity|].
  cbn [sub_each forallb_str]. rewrite IH by (intros c Hc; apply H; now right).
  rewrite andb_true_r. destruct (q a) eqn:Hq; [exact Hsp|].
  apply H; [now left|exact Hq].
Qed.

Lemma normal_char_cases_bool c :
  implb (normal_char c)
        (negb (isdecimal c) && negb (not_word_nor_space c)
         && Ascii.eqb (lower_char c) c) = true.
Proof. destruct c as [[] [] [] [] [] [] [] []]; vm_compute; reflexivity. Qed.

Lemma normal_char_cases c :
  normal_char c = true ->
  isdecimal c = false /\ not_word_nor_space c = false
  /\ Ascii.eqb (lower_char c) c = true.
Proof.
  intros H. pose proof (normal_char_cases_bool c) as B. rewrite H in B. simpl in B.
  apply andb_true_iff in B as [B B3]. apply andb_true_iff in B as [B1 B2].
  apply negb_true_iff in B1, B2. auto.
Qed.

Lemma lower_then_normal_bool c :
  implb (Ascii.eqb (lower_char c) c && negb (isdecimal c)
         && negb (not_word_nor_space c) && negb (isspace c))
        (normal_char c) = true.
Proof. destruct c as [[] [] [] [] [] [] [] []]; vm_compute; reflexivity. Qed.

Lemma lower_then_normal c :
  Ascii.eqb (lower_char c) c = true -> isdecimal c = false ->
  not_word_nor_space c = false -> isspace c = false -> normal_char c = true.
Proof.
  intros H1 H2 H3 H4. pose proof (lower_then_normal_bool c) as B.
  now rewrite H1, H2, H3, H4 in B.
Qed.

Lemma normal_char_word_bool c :
  implb (normal_char c)
        (Ascii.eqb c " "
         || (isword c && negb (isupper_char c) && Ascii.eqb (lower_char c) c)) = true.
Proof. destruct c as [[] [] [] [] [] [] [] []]; vm_compute; reflexivity. Qed.

(** The characters of the normalizer's output. *)
Lemma Text_Clean_normal (Text : string) :
  forallb_str normal_char (Text_Clean_str Text) = true.
Proof.
  unfold Text_Clean_str. apply forallb_str_strip.
  set (t1 := lower Text).
  set (t2 := sub_runs isdecimal false t1).
  set (t3 := sub_each not_word_nor_space t2).
  assert (H1 : forallb_str (fun c => Ascii.eqb (lower_char c) c) t1 = true)
    by apply forallb_str_lower_fixed.
  assert (H2 : forallb_str (fun c => Ascii.eqb (lower_char c) c && negb (isdecimal c)) t2
               = true).
  { apply forallb_str_sub_runs; [reflexivity|]. intros c Hc Hd.
    now rewrite (forallb_str_In _ _ H1 c Hc), Hd. }
  assert (H3 : forallb_str (fun c => Ascii.eqb (lower_char c) c && negb (isdecimal c)
                                     && negb (not_word_nor_space c)) t3 = true).
  { apply forallb_str_sub_each_absent; [reflexivity|]. intros c Hc Hw.
    now rewrite (forallb_str_In _ _ H2 c Hc), Hw. }
  apply forallb_str_sub_runs; [reflexivity|]. intros c Hc Hs.
  pose proof (forallb_str_In _ _ H3 c Hc) as H.
  apply andb_true_iff in H as [H Hw]. apply andb_true_iff in H as [Hl Hd].
  apply negb_true_iff in Hd, Hw. now apply lower_then_normal.
Qed.

End NormalizerShape.

(** X1. Normalizing twice is normalizing once. *)
Theorem Text_Clean_idempotent (Text : string) :
  Text_Clean_str (Text_Clean_str Text) = Text_Clean_str Text
  /\ Text_Clean (Text_Clean (PyStr Text)) = Text_Clean (PyStr Text).
Proof.
  assert (E : Text_Clean_str (Text_Clean_str Text) = Text_Clean_str Text).
  { pose proof (Text_Clean_normal Text) as Hn.
    pose proof (Text_Clean_spaced Text) as Hs.
    set (out := Text_Clean_str Text) in *.
    assert (Hl : lower out = out).
    { apply lower_fixed. eapply forallb_str_impl, Hn.
      intros c Hc. now apply normal_char_cases in Hc. }
    assert (Hd : sub_runs isdecimal false out = out).
    { apply sub_runs_absent. eapply forallb_str_impl, Hn.
      intros c Hc. apply normal_char_cases in Hc as (-> & _). reflexivity. }
    assert (He : sub_each not_word_nor_space out = out).
    { apply sub_each_absent. eapply forallb_str_impl, Hn.
      intros c Hc. apply normal_char_cases in Hc as (_ & -> & _). reflexivity. }
    unfold Text_Clean_str at 1. rewrite Hl, Hd, He, (sub_runs_spaced _ _ Hs).
    subst out. unfold Text_Clean_str. apply strip_idem. }
  split; [exact E|]. now rewrite !Text_Clean_PyStr, E.
Qed.

(** X2. The output of the normalizer has no whitespace at either end, is
    left unchanged by lower-casing, and each of its characters is a space or
    a word character (class [\w]). *)
Theorem Text_Clean_alphabet (Text : string) :
  strip (Text_Clean_str Text) = Text_Clean_str Text
  /\ lower (Text_Clean_str Text) = Text_Clean_str Text
  /\ forall c, In c (list_ascii_of_string (Text_Clean_str Text)) ->
       c = " "%char \/ isword c = true.
Proof.
  pose proof (Text_Clean_normal Text) as Hn.
  split; [apply strip_idem|]. split.
  - apply lower_fixed. eapply forallb_str_impl, Hn.
    intros c Hc. now apply normal_char_cases in Hc.
  - intros c Hc. pose proof (forallb_str_In _ _ Hn c Hc) as H.
    pose proof (normal_char_word_bool c) as B. rewrite H in B. cbn [implb] in B.
    apply orb_true_iff in B as [B|B].
    + left. now apply Ascii.eqb_eq.
    + right. apply andb_true_iff in B as [B _]. now apply andb_true_iff in B as [B _].
Qed.

Section NormalizerLength.

Implicit Types (s : string) (p : ascii -> bool).

Lemma length_lstrip s : (String.length (lstrip s) <= String.length s)%nat.
Proof.
  induction s as [|a s IH]; simpl; [lia|]. destruct (isspace a); simpl; lia.
Qed.

Lemma length_rstrip s : (String.length (rstrip s) <= String.length s)%nat.
Proof.
  induction s as [|a s IH]; simpl; [lia|].
  destruct (isspace a && is_empty (rstrip s)); simpl; lia.
Qed.

Lemma length_strip s : (String.length (strip s) <= String.length s)%nat.
Proof.
  unfold strip. pose proof (length_rstrip (lstrip s)). pose proof (length_lstrip s). lia.
Qed.

Lemma length_sub_runs p s : forall b,
  (String.length (sub_runs p b s) <= String.length s)%nat.
Proof.
  induction s as [|a s IH]; intros b; simpl; [lia|].
  destruct (p a); [destruct b|]; simpl;
    [specialize (IH true)|specialize (IH true)|specialize (IH false)]; lia.
Qed.

Lemma length_sub_each p s : String.length (sub_each p s) = String.length s.
Proof. induction s as [|a s IH]; simpl; [reflexivity|]. now rewrite IH. Qed.

End NormalizerLength.

(** X3. The output of the normalizer is never longer than the lower-cased
    text: no step after the lower-casing adds a character. *)
Theorem Text_Clean_length (Text : string) :
  (String.length (Text_Clean_str Text) <= String.length (lower Text))%nat.
Proof.
  unfold Text_Clean_str.
  pose proof (length_strip (sub_runs isspace false
    (sub_each not_word_nor_space (sub_runs isdecimal false (lower Text))))) as H1.
  pose proof (length_sub_runs isspace
    (sub_each not_word_nor_space (sub_runs isdecimal false (lower Text))) false) as H2.
  rewrite length_sub_each in H2.
  pose proof (length_sub_runs isdecimal (lower Text) false) as H3.
  lia.
Qed.

(* ================================================================== *)
(** ** Further properties of the skill extractor *)
(* ================================================================== *)

Section Truncation.

Lemma length_app (s t : string) :
  String.length (s ++ t) = (String.length s + String.length t)%nat.
Proof.
  induction s as [|a s IH]; [reflexivity|].
  change (S (String.length (s ++ t)) = S (String.length s + String.length t)).
  now rewrite IH.
Qed.

Lemma length_substring_0 (n : nat) : forall s : string,
  String.length (substring 0 n s) = Nat.min n (String.length s).
Proof.
  induction n as [|n IH]; intros s; destruct s as [|a s]; try reflexivity.
  cbn [substring String.length]. now rewrite IH.
Qed.

Lemma substring_0_all (n : nat) : forall s : string,
  (String.length s <= n)%nat -> substring 0 n s = s.
Proof.
  induction n as [|n IH]; intros s H; destruct s as [|a s]; try reflexivity.
  - cbn [String.length] in H. lia.
  - cbn [substring]. rewrite IH; [reflexivity|]. cbn [String.length] in H. lia.
Qed.

End Truncation.

(** X4. The text sent to the model is the resume itself when it has at most
    4000 characters; a longer resume is cut to its first 4000 characters
    followed by three dots, 4003 characters in all. *)
Theorem truncate_resume_length (resume_text : string) :
  ((String.length resume_text <= MAX_RESUME_CHARS_FOR_LLM)%nat ->
     truncate_resume resume_text = resume_text)
  /\ ((MAX_RESUME_CHARS_FOR_LLM < String.length resume_text)%nat ->
      truncate_resume resume_text
      = substring 0 MAX_RESUME_CHARS_FOR_LLM resume_text ++ "..."
      /\ String.length (truncate_resume resume_text) = (MAX_RESUME_CHARS_FOR_LLM + 3)%nat)
  /\ (String.length (truncate_resume resume_text) <= MAX_RESUME_CHARS_FOR_LLM + 3)%nat
  /\ substring 0 MAX_RESUME_CHARS_FOR_LLM (truncate_resume resume_text)
     = substring 0 MAX_RESUME_CHARS_FOR_LLM resume_text.
Proof.
  unfold truncate_resume. generalize MAX_RESUME_CHARS_FOR_LLM. intros m.
  destruct (m <? String.length resume_text)%nat eqn:E.
  - apply Nat.ltb_lt in E.
    assert (L : String.length (substring 0 m resume_text ++ "...") = (m + 3)%nat).
    { rewrite length_app, length_substring_0. cbn [String.length]. lia. }
    split; [intros H; lia|]. split; [intros _; split; [reflexivity|exact L]|].
    split; [rewrite L; lia|].
    clear L. revert resume_text E. induction m as [|m IH]; intros s E.
    + destruct s as [|a s]; reflexivity.
    + destruct s as [|a s]; [cbn [String.length] in E; lia|].
      cbn [substring]. change (String a (substring 0 m s) ++ "...")
        with (String a (substring 0 m s ++ "...")).
      cbn [substring]. rewrite IH; [reflexivity|]. cbn [String.length] in E. lia.
  - apply Nat.ltb_ge in E.
    split; [reflexivity|]. split; [intros H; lia|]. split; [lia|reflexivity].
Qed.

Section CellBatch.

Variable client : InferenceClient.
Variable extract : string -> Remote string.
Variable req : string -> request.
Hypothesis extract_one_call :
  forall text n, extract text n = (client n (req text), S n).

Lemma extract_cell_outcome (v : pyval) (n : nat) :
  extract_cell extract v n
  = match v with
    | PyStr t =>
        match client n (req t) with
        | inl e => (inl (ApiFailure e), S n)
        | inr out => (inr out, S n)
        end
    | _ => (inl (Raised TypeError), n)
    end.
Proof.
  destruct v as [t| |]; try reflexivity.
  cbn [extract_cell]. unfold lift_remote. rewrite extract_one_call.
  now destruct (client n (req t)).
Qed.

Lemma progress_apply_cells_cons (v : pyval) (column : list pyval) (n : nat) :
  progress_apply_cells (extract_cell extract) (v :: column) n
  = match extract_cell extract v n with
    | (inl e, m) => (inl e, m)
    | (inr out, m) =>
        match progress_apply_cells (extract_cell extract) column m with
        | (inl e, m') => (inl e, m')
        | (inr outs, m') => (inr (out :: outs), m')
        end
    end.
Proof.
  cbn [progress_apply_cells]. unfold run_bind at 1.
  destruct (extract_cell extract v n) as [[e|out] m]; [reflexivity|].
  unfold run_bind.
  now destruct (progress_apply_cells (extract_cell extract) column m) as [[e|outs] m'].
Qed.

Lemma cells_success (column : list pyval) : forall n : nat,
  (forall i v, column !! i = Some v ->
     exists t out, v = PyStr t /\ client (n + i) (req t) = inr out) ->
  exists outs,
    progress_apply_cells (extract_cell extract) column n = (inr outs, n + length column)
    /\ length outs = length column
    /\ forall i t, column !! i = Some (PyStr t) ->
         exists out, outs !! i = Some out /\ client (n + i) (req t) = inr out.
Proof.
  induction column as [|v column IH]; intros n Hok.
  - exists []. cbn. unfold run_ret. rewrite Nat.add_0_r. repeat split.
    intros i t Hi. discriminate.
  - destruct (Hok 0%nat v eq_refl) as (t & out & -> & Hout). rewrite Nat.add_0_r in Hout.
    destruct (IH (S n)) as (outs & Hrun & Hlen & Hall).
    { intros i w Hi. destruct (Hok (S i) w Hi) as (t' & o' & E & H').
      exists t', o'. split; [exact E|]. now rewrite Nat.add_succ_r in H'. }
    exists (out :: outs). split; [|split].
    + rewrite progress_apply_cells_cons, extract_cell_outcome, Hout, Hrun.
      cbn [length]. now rewrite Nat.add_succ_r.
    + cbn [length]. now rewrite Hlen.
    + intros [|i] t' Hi.
      * cbn in Hi. injection Hi as <-. exists out. rewrite Nat.add_0_r. now split.
      * cbn in Hi. destruct (Hall i t' Hi) as (o & Ho & Hc).
        exists o. split; [exact Ho|]. now rewrite Nat.add_succ_r.
Qed.

Lemma cells_calls (column : list pyval) : forall n : nat,
  (n <= snd (progress_apply_cells (extract_cell extract) column n)
     <= n + length column)%nat
  /\ (forall outs,
        fst (progress_apply_cells (extract_cell extract) column n) = inr outs ->
        snd (progress_apply_cells (extract_cell extract) column n)
        = (n + length column)%nat
        /\ length outs = length column
        /\ forall v, In v column -> is_str v = true)
  /\ (forall e,
        fst (progress_apply_cells (extract_cell extract) column n)
        = inl (ApiFailure e) ->
        (n < snd (progress_apply_cells (extract_cell extract) column n))%nat)
  /\ (forall x,
        fst (progress_apply_cells (extract_cell extract) column n) = inl (Raised x) ->
        x = TypeError /\ exists v, In v column /\ is_str v = false).
Proof.
  induction column as [|v column IH]; intros n.
  - cbn. split; [lia|]. split; [|split].
    + intros outs [= <-]. split; [lia|]. split; [reflexivity|]. intros v [].
    + intros e H. discriminate H.
    + intros x H. discriminate H.
  - rewrite progress_apply_cells_cons, extract_cell_outcome. cbn [length].
    destruct v as [t| |].
    + destruct (client n (req t)) as [e|out].
      * cbn. split; [lia|]. split; [|split].
        -- intros outs H. discriminate H.
        -- intros e' _. lia.
        -- intros x H. discriminate H.
      * destruct (IH (S n)) as (Hb & Hok & Hapi & Hraise).
        destruct (progress_apply_cells (extract_cell extract) column (S n))
          as [[f|outs] m] eqn:E; cbn in *.
        -- split; [lia|]. split; [|split].
           ++ intros outs H. discriminate H.
           ++ intros e' [= ->]. specialize (Hapi e' eq_refl). lia.
           ++ intros x [= ->]. destruct (Hraise x eq_refl) as (Hx & w & Hw & Hs).
              split; [exact Hx|]. exists w. auto.
        -- destruct (Hok outs eq_refl) as (Hm & Hl & Hall).
           split; [lia|]. split; [|split].
           ++ intros outs' [= <-]. cbn [length]. split; [lia|]. split; [lia|].
              intros w [<-|Hw]; [reflexivity|now apply Hall].
           ++ intros e H. discriminate H.
           ++ intros x H. discriminate H.
    + cbn. split; [lia|]. split; [|split].
      * intros outs H. discriminate H.
      * intros e H. discriminate H.
      * intros x [= <-]. split; [reflexivity|]. exists PyNaN. split; [now left|reflexivity].
    + cbn. split; [lia|]. split; [|split].
      * intros outs H. discriminate H.
      * intros e H. discriminate H.
      * intros x [= <-]. split; [reflexivity|]. exists (PyInt z).
        split; [now left|reflexivity].
Qed.

End CellBatch.

(** X5. Take a column of cells, as read back from the CSV file. When every
    cell is a string and the endpoint answers every call it receives, the
    batch returns one completion per record, in the order of the records,
    each being the answer to the request of its record, and makes exactly
    one call per record. This holds for both extractors. *)
Theorem batch_success_in_order (client : InferenceClient) (esco few_shot : string)
    (kg : bool) (column : list pyval) (n : nat) :
  let req := if kg then kg_request esco few_shot else zero_shot_request in
  let extract :=
    if kg then fun x => extract_skills_llama3_sambanova_kg x esco few_shot client
    else extract_skills_llama3_sambanova client in
  (forall i v, column !! i = Some v ->
     exists t out, v = PyStr t /\ client (n + i) (req t) = inr out) ->
  exists outs,
    progress_apply_cells (extract_cell extract) column n = (inr outs, n + length column)
    /\ length outs = length column
    /\ forall i t, column !! i = Some (PyStr t) ->
         exists out, outs !! i = Some out /\ client (n + i) (req t) = inr out.
Proof.
  intros req extract Hok.
  apply (cells_success client extract req); [|exact Hok].
  subst req extract. destruct kg; intros t m;
    [apply extract_kg_is_one_call | apply extract_is_one_call].
Qed.

Lemma batch_success_in_order_witness :
  exists outs,
    progress_apply_cells (extract_cell (extract_skills_llama3_sambanova steady_client))
      [PyStr "resume one"; PyStr "resume two"] 0
    = (inr outs, (0 + 2)%nat)
    /\ length outs = 2%nat
    /\ forall i t, [PyStr "resume one"; PyStr "resume two"] !! i = Some (PyStr t) ->
         exists out, outs !! i = Some out
                     /\ steady_client (0 + i) (zero_shot_request t) = inr out.
Proof.
  apply (batch_success_in_order steady_client "" "" false
           [PyStr "resume one"; PyStr "resume two"] 0).
  intros i v Hi. destruct i as [|[|i]]; cbn in Hi; try discriminate Hi;
    injection Hi as <-; eexists _, "python, sql"; split; reflexivity.
Defined.

(** X6. Whatever the endpoint answers and whatever the cells hold, a batch
    makes at most one call per record: the number of calls never exceeds the
    number of records. A batch that succeeds has made exactly one call per
    record, returns one completion per record, and all its records are
    strings. A batch that ends in a failed call has made at least one call.
    The only exception the extractor itself raises is [TypeError], on a cell
    that is not a string; when that cell is the first record no call is
    made at all. This holds for both extractors. *)
Theorem batch_never_repeats_a_call (client : InferenceClient) (esco few_shot : string)
    (kg : bool) (column : list pyval) (n : nat) :
  let extract :=
    if kg then fun x => extract_skills_llama3_sambanova_kg x esco few_shot client
    else extract_skills_llama3_sambanova client in
  let run := progress_apply_cells (extract_cell extract) column n in
  (n <= snd run <= n + length column)%nat
  /\ (forall outs, fst run = inr outs ->
        snd run = (n + length column)%nat /\ length outs = length column
        /\ forall v, In v column -> is_str v = true)
  /\ (forall e, fst run = inl (ApiFailure e) -> (n < snd run)%nat)
  /\ (forall x, fst run = inl (Raised x) ->
        x = TypeError /\ exists v, In v column /\ is_str v = false)
  /\ (forall v rest, column = v :: rest -> is_str v = false ->
        run = (inl (Raised TypeError), n)).
Proof.
  intros extract run.
  assert (Hone : forall t m, extract t m
            = (client m ((if kg then kg_request esco few_shot else zero_shot_request) t),
               S m)).
  { subst extract. destruct kg; intros t m;
      [apply extract_kg_is_one_call | apply extract_is_one_call]. }
  destruct (cells_calls client extract _ Hone column n) as (H1 & H2 & H3 & H4).
  split; [exact H1|]. split; [exact H2|]. split; [exact H3|]. split; [exact H4|].
  intros v rest -> Hv. subst run.
  rewrite (progress_apply_cells_cons extract), (extract_cell_outcome client extract _ Hone).
  now destruct v.
Qed.

(* ================================================================== *)
(** ** Properties of [clean_output] *)
(* ================================================================== *)

Section CleanOutput.

Implicit Types (s t : string) (c : ascii) (p : ascii -> bool).

Lemma append_nil_r s : s ++ "" = s.
Proof.
  induction s as [|a s IH]; [reflexivity|]. now rewrite append_cons, IH.
Qed.

Lemma split_runs_nonnil p s : forall b, exists h r, split_runs p b s = h :: r.
Proof.
  induction s as [|a s IH]; intros b; cbn [split_runs]; [eauto|].
  destruct (p a).
  - destruct b; [apply IH|eauto].
  - destruct (IH false) as (h & r & ->). eauto.
Qed.

Lemma split_runs_absent p s b :
  forallb_str (fun c => negb (p c)) s = true -> split_runs p b s = [s].
Proof.
  revert b. induction s as [|a s IH]; intros b H; [reflexivity|].
  cbn [forallb_str] in H. apply andb_true_iff in H as [Ha Hs].
  apply negb_true_iff in Ha. cbn [split_runs]. now rewrite Ha, (IH false Hs).
Qed.

(** A separator-free, non-empty prefix is glued to the first piece of what
    follows. *)
Lemma split_runs_app p s t b h r :
  forallb_str (fun c => negb (p c)) s = true -> s <> "" ->
  split_runs p false t = h :: r ->
  split_runs p b (s ++ t) = (s ++ h) :: r.
Proof.
  intros Hs Hne Ht. revert b. induction s as [|a s IH]; intros b; [congruence|].
  cbn [forallb_str] in Hs. apply andb_true_iff in Hs as [Ha Hs].
  apply negb_true_iff in Ha. rewrite !append_cons. cbn [split_runs]. rewrite Ha.
  destruct s as [|a' s].
  - change ("" ++ t) with t. now rewrite Ht.
  - now rewrite (IH Hs ltac:(discriminate) false).
Qed.

Lemma split_runs_pieces p s : forall b piece,
  In piece (split_runs p b s) -> forallb_str (fun c => negb (p c)) piece = true.
Proof.
  induction s as [|a s IH]; intros b piece; cbn [split_runs].
  - intros [<-|[]]. reflexivity.
  - destruct (p a) eqn:Ha.
    + destruct b; [apply IH|]. intros [<-|H]; [reflexivity|]. eapply IH, H.
    + destruct (split_runs_nonnil p s false) as (h & r & E). rewrite E.
      intros [<-|H].
      * cbn [forallb_str]. rewrite Ha. apply (IH false h). rewrite E. now left.
      * apply (IH false piece). rewrite E. now right.
Qed.

Lemma no_space_strip s :
  forallb_str (fun c => negb (isspace c)) s = true -> strip s = s.
Proof.
  intros H. assert (R : rstrip s = s).
  { induction s as [|a s IH]; [reflexivity|].
    cbn [forallb_str] in H. apply andb_true_iff in H as [Ha Hs].
    apply negb_true_iff in Ha. cbn [rstrip]. now rewrite Ha, (IH Hs). }
  unfold strip. destruct s as [|a s]; [reflexivity|].
  cbn [forallb_str] in H. apply andb_true_iff in H as [Ha _].
  apply negb_true_iff in Ha. cbn [lstrip]. now rewrite Ha.
Qed.

Lemma sep_free_no_space c : negb (is_output_sep c) = true -> negb (isspace c) = true.
Proof.
  unfold is_output_sep. destruct (isspace c); [discriminate|reflexivity].
Qed.

Lemma is_output_sep_lower c : is_output_sep (lower_char c) = is_output_sep c.
Proof. destruct c as [[] [] [] [] [] [] [] []]; vm_compute; reflexivity. Qed.

Lemma output_token_parts s :
  output_token s = true ->
  s <> "" /\ forallb_str (fun c => negb (is_output_sep c)) s = true
  /\ strip s = s /\ lower s = s.
Proof.
  unfold output_token. intros H. apply andb_true_iff in H as [Hne Hall].
  apply negb_true_iff, is_empty_false in Hne.
  assert (Hsep : forallb_str (fun c => negb (is_output_sep c)) s = true).
  { eapply forallb_str_impl, Hall. intros c Hc. now apply andb_true_iff in Hc as [-> _]. }
  split; [exact Hne|]. split; [exact Hsep|]. split.
  - apply no_space_strip. eapply forallb_str_impl, Hsep. apply sep_free_no_space.
  - apply lower_fixed. eapply forallb_str_impl, Hall.
    intros c Hc. now apply andb_true_iff in Hc as [_ ->].
Qed.

(** The tokens [clean_output] makes of the pieces it keeps. *)
Lemma output_token_of_piece piece :
  forallb_str (fun c => negb (is_output_sep c)) piece = true ->
  negb (is_empty (strip piece)) = true ->
  output_token (lower (strip piece)) = true.
Proof.
  intros Hsep Hne.
  rewrite no_space_strip in * by (eapply forallb_str_impl, Hsep; apply sep_free_no_space).
  unfold output_token. rewrite is_empty_lower, Hne. cbn [andb].
  rewrite forallb_str_lower. clear Hne.
  induction piece as [|a piece IH]; [reflexivity|].
  cbn [forallb_str] in *. apply andb_true_iff in Hsep as [Ha Hp].
  rewrite is_output_sep_lower, Ha, lower_char_idem, (IH Hp), Ascii.eqb_refl.
  reflexivity.
Qed.

Lemma clean_output_tokens (text : string) :
  Forall (fun t => output_token t = true)
    (map (fun s => lower (strip s))
         (List.filter (fun s => negb (is_empty (strip s)))
                      (split_runs is_output_sep false text))).
Proof.
  apply Forall_forall. intros t Ht.
  apply list_elem_of_In, in_map_iff in Ht as (piece & <- & Hp).
  apply filter_In in Hp as [Hin Hne].
  apply output_token_of_piece; [|exact Hne].
  eapply split_runs_pieces, Hin.
Qed.

Lemma split_runs_join (toks : list string) :
  Forall (fun t => output_token t = true) toks -> toks <> [] ->
  forall b, split_runs is_output_sep b (join ", " toks) = toks.
Proof.
  induction 1 as [|x toks' Hx Htoks IH]; intros Hne b; [congruence|].
  rename toks' into toks.
  destruct (output_token_parts x Hx) as (Hxne & Hsep & _ & _).
  destruct toks as [|y toks].
  - now apply split_runs_absent.
  - rewrite join_cons2.
    apply (split_runs_app is_output_sep x _ b "" (y :: toks)) in Hsep as ->;
      [now rewrite append_nil_r|exact Hxne|].
    change (", " ++ join ", " (y :: toks))
      with (String "," (String " " (join ", " (y :: toks)))).
    cbn [split_runs].
    change (is_output_sep ",") with true. change (is_output_sep " ") with true.
    cbn iota. now rewrite (IH ltac:(discriminate) true).
Qed.

Lemma clean_output_join (toks : list string) :
  Forall (fun t => output_token t = true) toks ->
  clean_output (PyStr (join ", " toks)) = join ", " toks.
Proof.
  intros Hall. destruct toks as [|x toks]; [reflexivity|].
  unfold clean_output.
  assert (Hhead : is_empty (strip (join ", " (x :: toks))) = false).
  { inversion Hall as [|? ? Hx _]; subst.
    destruct (output_token_parts x Hx) as (Hxne & Hsep & _ & _).
    destruct x as [|c x]; [congruence|].
    cbn [forallb_str] in Hsep. apply andb_true_iff in Hsep as [Hc _].
    apply sep_free_no_space, negb_true_iff in Hc.
    assert (E : exists t, join ", " (String c x :: toks) = String c t).
    { destruct toks; [eauto|]. rewrite join_cons2, append_cons. eauto. }
    destruct E as [t ->]. unfold strip.
    now rewrite (lstrip_nonspace _ _ Hc), (rstrip_nonspace _ _ Hc). }
  rewrite Hhead, (split_runs_join _ Hall ltac:(discriminate) false).
  f_equal. clear Hhead. induction Hall as [|y toks' Hy Htoks IH]; [reflexivity|].
  destruct (output_token_parts y Hy) as (Hyne & _ & Hstrip & Hlow).
  cbn [List.filter]. rewrite Hstrip.
  apply is_empty_false in Hyne. rewrite Hyne. cbn [negb map].
  now rewrite Hstrip, Hlow, IH.
Qed.

End CleanOutput.

(** X7. [clean_output] is idempotent: cleaning its own output changes
    nothing. *)
Theorem clean_output_idempotent (text : pyval) :
  clean_output (PyStr (clean_output text)) = clean_output text.
Proof.
  destruct text as [t| |]; try reflexivity.
  unfold clean_output at 2 3. destruct (is_empty (strip t)); [reflexivity|].
  apply clean_output_join, clean_output_tokens.
Qed.

(** X8. The output of [clean_output] is a list of tokens joined by a comma
    and a space, each token non-empty, in lower case and free of
    whitespace, commas and semicolons; an input that is not a string or is
    blank gives the empty string. *)
Theorem clean_output_shape (text : pyval) :
  (exists toks,
     clean_output text = join ", " toks
     /\ Forall (fun t => t <> "" /\ lower t = t
                 /\ forall c, In c (list_ascii_of_string t) ->
                      isspace c = false /\ c <> ","%char /\ c <> ";"%char) toks)
  /\ (malformed text -> clean_output text = "").
Proof.
  split.
  - assert (H : exists toks, clean_output text = join ", " toks
                  /\ Forall (fun t => output_token t = true) toks).
    { destruct text as [t| |]; try (exists []; split; [reflexivity|constructor]).
      unfold clean_output. destruct (is_empty (strip t));
        [exists []; split; [reflexivity|constructor]|].
      eexists. split; [reflexivity|apply clean_output_tokens]. }
    destruct H as (toks & E & Hall). exists toks. split; [exact E|].
    eapply Forall_impl; [exact Hall|]. intros t Ht.
    destruct (output_token_parts t Ht) as (H1 & H2 & _ & H4).
    split; [exact H1|]. split; [exact H4|].
    intros c Hc. pose proof (forallb_str_In _ _ H2 c Hc) as Hs.
    apply negb_true_iff in Hs. unfold is_output_sep in Hs.
    apply orb_false_iff in Hs as [Hs H59]. apply orb_false_iff in Hs as [Hsp Hcomma].
    split; [exact Hsp|]. split; intros ->; discriminate.
  - destruct text as [t| |]; try reflexivity.
    cbn [malformed]. intros H. unfold clean_output. now rewrite H.
Qed.

(* ================================================================== *)
(** ** Further properties of the ontology mapper *)
(* ================================================================== *)

Section CandidateAlphabet.

Lemma skill_char_bool (c : ascii) :
  implb (negb (not_skill_char c))
        (negb (is_comma c) && negb (Ascii.eqb c ";") && negb (isupper_char c)
         && (between 97 122 c || between 48 57 c || isspace c
             || Ascii.eqb c "." || Ascii.eqb c "+" || Ascii.eqb c "#"
             || Ascii.eqb c "-")) = true.
Proof. destruct c as [[] [] [] [] [] [] [] []]; vm_compute; reflexivity. Qed.

End CandidateAlphabet.

(** X9. Every candidate phrase has no whitespace at its ends and is made of
    the letters a-z, the digits 0-9, whitespace, periods, plus-signs, hash
    marks and hyphens only: it holds no comma, no semicolon and no
    upper-case letter. *)
Theorem candidate_alphabet (text : pyval) (phrase : string) :
  phrase ∈ clean_extracted_skills text ->
  strip phrase = phrase
  /\ forall c, In c (list_ascii_of_string phrase) ->
       (between 97 122 c || between 48 57 c || isspace c
        || Ascii.eqb c "." || Ascii.eqb c "+" || Ascii.eqb c "#"
        || Ascii.eqb c "-") = true
       /\ c <> ","%char /\ c <> ";"%char /\ isupper_char c = false.
Proof.
  intros H. apply candidate_shape in H as [Hs Hc]. split; [exact Hs|].
  intros c Hin. pose proof (forallb_str_In _ _ Hc c Hin) as Hk.
  pose proof (skill_char_bool c) as B. rewrite Hk in B. cbn [implb] in B.
  apply andb_true_iff in B as [B B4]. apply andb_true_iff in B as [B B3].
  apply andb_true_iff in B as [B1 B2]. apply negb_true_iff in B1, B2, B3.
  split; [exact B4|]. split; [|split; [|exact B3]].
  - intros ->. discriminate B1.
  - intros ->. discriminate B2.
Qed.

Lemma candidate_alphabet_witness :
  strip "c++" = "c++"
  /\ forall c, In c (list_ascii_of_string "c++") ->
       (between 97 122 c || between 48 57 c || isspace c
        || Ascii.eqb c "." || Ascii.eqb c "+" || Ascii.eqb c "#"
        || Ascii.eqb c "-") = true
       /\ c <> ","%char /\ c <> ";"%char /\ isupper_char c = false.
Proof.
  apply (candidate_alphabet (PyStr "Python; C++ and SQL") "c++").
  vm_compute. reflexivity.
Defined.

(** X10. [map_to_esco] ignores the case of the phrase and the whitespace
    around it, whatever the tables and the scorer, and returns nothing for a
    blank phrase, even when the empty string is a key of a table. *)
Theorem map_to_esco_normalises (scorer : string -> string -> nat)
    (esco_df : list esco_row) (pref_map_ref alt_map_ref : gmap string string)
    (esco_lower_list_ref : list string) (skill_name : string) :
  map_to_esco scorer esco_df (lower skill_name) pref_map_ref alt_map_ref
    esco_lower_list_ref
  = map_to_esco scorer esco_df skill_name pref_map_ref alt_map_ref esco_lower_list_ref
  /\ map_to_esco scorer esco_df (strip skill_name) pref_map_ref alt_map_ref
       esco_lower_list_ref
     = map_to_esco scorer esco_df skill_name pref_map_ref alt_map_ref
         esco_lower_list_ref
  /\ (strip skill_name = "" ->
      map_to_esco scorer esco_df skill_name pref_map_ref alt_map_ref
        esco_lower_list_ref = None).
Proof.
  unfold map_to_esco. split; [|split].
  - now rewrite lower_idem.
  - now rewrite !strip_lower, strip_idem.
  - intros H. now rewrite strip_lower, H.
Qed.

Section PrefMap.

Variable esco_df : list esco_row.

Lemma pref_map_round_trip (label : string) :
  In label (labels_of esco_df) ->
  (forall l', In l' (labels_of esco_df) -> lower l' = lower label -> l' = label) ->
  pref_map_of esco_df !! lower label = Some label.
Proof.
  intros Hin Huniq. destruct (pref_map_is_Some esco_df label Hin) as [l' Hl'].
  rewrite Hl'. apply pref_map_lookup in Hl' as [H1 H2]. now rewrite (Huniq l' H1 H2).
Qed.

End PrefMap.

(** X11. The keys of [pref_map] are exactly the lower-cased canonical
    labels, and the value under a key is a canonical label that lower-cases
    to the key; a label that no other label equals up to case is found again
    under its lower-cased form. *)
Theorem pref_map_keys_and_values (esco_df : list esco_row) (k : string) :
  (is_Some (pref_map_of esco_df !! k)
   <-> exists label, In label (labels_of esco_df) /\ lower label = k)
  /\ (forall label, pref_map_of esco_df !! k = Some label ->
        In label (labels_of esco_df) /\ lower label = k)
  /\ (forall label, In label (labels_of esco_df) -> lower label = k ->
        (forall l', In l' (labels_of esco_df) -> lower l' = k -> l' = label) ->
        pref_map_of esco_df !! k = Some label).
Proof.
  split; [|split].
  - split.
    + intros [label H]. exists label. now apply pref_map_lookup.
    + intros (label & Hin & <-). now apply pref_map_is_Some.
  - intros label. apply pref_map_lookup.
  - intros label Hin <- Huniq. now apply pref_map_round_trip.
Qed.

Section FirstMaximum.

Variable scorer : string -> string -> nat.

Lemma extractOne_first_max (query : string) (before : list string) :
  forall (c : string) (after : list string),
    (forall x, In x before -> (scorer query x < scorer query c)%nat) ->
    (forall x, In x after -> (scorer query x <= scorer query c)%nat) ->
    extractOne scorer query (before ++ c :: after) = Some (c, scorer query c).
Proof.
  induction before as [|b before IH]; intros c after Hlt Hle.
  - cbn [app extractOne].
    destruct (extractOne scorer query after) as [[c' sc']|] eqn:E; [|reflexivity].
    apply extractOne_best in E as (Hin & -> & _).
    specialize (Hle c' Hin).
    assert (L : (scorer query c' <=? scorer query c)%nat = true) by now apply Nat.leb_le.
    now rewrite L.
  - cbn [app extractOne]. rewrite (IH c after).
    + assert (L : (scorer query c <=? scorer query b)%nat = false).
      { apply Nat.leb_gt. apply Hlt. now left. }
      now rewrite L.
    + intros x Hx. apply Hlt. now right.
    + exact Hle.
Qed.

End FirstMaximum.

(** X12. Ties of the fuzzy match go to the first choice: [extractOne]
    returns the choice that scores strictly more than every choice before
    it and at least as much as every choice after it, with its score; it
    returns nothing exactly when there is no choice. *)
Theorem extractOne_first_of_the_best (scorer : string -> string -> nat)
    (query : string) (before : list string) (c : string) (after : list string) :
  (forall x, In x before -> (scorer query x < scorer query c)%nat) ->
  (forall x, In x after -> (scorer query x <= scorer query c)%nat) ->
  extractOne scorer query (before ++ c :: after) = Some (c, scorer query c)
  /\ (forall choices, extractOne scorer query choices = None <-> choices = []).
Proof.
  intros Hlt Hle. split; [now apply extractOne_first_max|].
  intros choices. split; [apply extractOne_None|]. now intros ->.
Qed.

Lemma extractOne_first_of_the_best_witness :
  extractOne constant_scorer "excel" ([] ++ "sql" :: ["python"; "r"])
  = Some ("sql", constant_scorer "excel" "sql")
  /\ (forall choices, extractOne constant_scorer "excel" choices = None <-> choices = []).
Proof.
  apply (extractOne_first_of_the_best constant_scorer "excel" [] "sql" ["python"; "r"]).
  - intros x [].
  - intros x _. unfold constant_scorer. lia.
Defined.

Section MappedLabels.

Variable scorer : string -> string -> nat.
Variable esco_df : list esco_row.

#[local] Instance str_le_total : Total str_le.
Proof. intros a b. unfold str_le. apply String.leb_total. Qed.

Lemma length_omap_le {A B} (f : A -> option B) (l : list A) :
  (length (omap f l) <= length l)%nat.
Proof.
  induction l as [|a l IH]; [reflexivity|].
  cbn [omap list_omap]. destruct (f a); cbn [length]; lia.
Qed.

Lemma mapped_labels_length (s : gset string) :
  (length (mapped_labels scorer esco_df s) <= size s)%nat.
Proof.
  unfold mapped_labels, sorted. rewrite merge_sort_Permutation.
  etransitivity; [apply List.filter_length_le|].
  etransitivity; [apply length_omap_le|]. reflexivity.
Qed.

Lemma mapped_labels_Sorted (s : gset string) :
  Sorted str_le (mapped_labels scorer esco_df s).
Proof. unfold mapped_labels, sorted. apply Sorted_merge_sort. apply _. Qed.

End MappedLabels.

(** X13. The labels written for a record are in non-decreasing code-point
    order, none of them is empty, and there are at most as many of them as
    candidate phrases. *)
Theorem mapped_labels_sorted_and_bounded (scorer : string -> string -> nat)
    (esco_df : list esco_row) (s : gset string) :
  Sorted (fun a b => String.leb a b = true) (mapped_labels scorer esco_df s)
  /\ (forall label, In label (mapped_labels scorer esco_df s) -> label <> "")
  /\ (length (mapped_labels scorer esco_df s) <= size s)%nat.
Proof.
  split; [apply mapped_labels_Sorted|]. split; [|apply mapped_labels_length].
  intros label H. now apply mapped_labels_In in H.
Qed.

(** X14. With an empty ontology nothing is ever mapped: every phrase is
    dropped, whatever the scorer. *)
Theorem empty_ontology_maps_nothing (scorer : string -> string -> nat)
    (extracted_skills_raw : pyval) (skill_name : string) :
  map_to_esco scorer [] skill_name (pref_map_of []) (alt_map_of [])
    (esco_preferred_lower_list_of []) = None
  /\ mapper scorer [] extracted_skills_raw = []
  /\ mapped_skills_str scorer [] (clean_extracted_skills extracted_skills_raw) = "".
Proof.
  assert (H : mapper scorer [] extracted_skills_raw = []).
  { destruct (mapper scorer [] extracted_skills_raw) as [|l rest] eqn:E; [reflexivity|].
    assert (Hin : In l (mapper scorer [] extracted_skills_raw)) by (rewrite E; now left).
    apply mapper_In_labels in Hin. destruct Hin. }
  split; [|split; [exact H|]].
  - destruct (map_to_esco scorer [] skill_name _ _ _) as [l|] eqn:E; [|reflexivity].
    apply map_to_esco_label in E. destruct E.
  - unfold mapped_skills_str. fold (mapper scorer [] extracted_skills_raw).
    now rewrite H.
Qed.

(* ================================================================== *)
(** ** The alternate-label table and the separators of the cleaning *)
(* ================================================================== *)

Section AltLabels.

Implicit Types (s t : string) (c : ascii) (p q : ascii -> bool).

Lemma replace_char_delete c s :
  replace (String c "") "" s = delete_chars (Ascii.eqb c) s.
Proof.
  unfold replace. induction s as [|a s IH]; [reflexivity|].
  cbn [replace_from delete_chars String.prefix String.length Nat.sub].
  destruct (ascii_dec c a) as [->|Hne].
  - rewrite Ascii.eqb_refl. destruct s; exact IH.
  - apply Ascii.eqb_neq in Hne. now rewrite Hne, IH.
Qed.

Lemma forallb_str_delete_keep p q s :
  forallb_str q s = true -> forallb_str q (delete_chars p s) = true.
Proof.
  induction s as [|a s IH]; [reflexivity|]. cbn [forallb_str delete_chars].
  intros H. apply andb_true_iff in H as [Ha Hs].
  destruct (p a); [now apply IH|]. cbn [forallb_str]. now rewrite Ha, IH.
Qed.

Lemma split_on_nonnil p s : exists h r, split_on p s = h :: r.
Proof.
  induction s as [|a s (h & r & E)]; cbn [split_on]; [eauto|].
  destruct (p a); [eauto|]. rewrite E. eauto.
Qed.

Lemma split_on_pieces p q s piece :
  forallb_str q s = true -> In piece (split_on p s) ->
  forallb_str q piece = true /\ forallb_str (fun c => negb (p c)) piece = true.
Proof.
  revert piece. induction s as [|a s IH]; intros piece Hq; cbn [split_on].
  - intros [<-|[]]. now split.
  - cbn [forallb_str] in Hq. apply andb_true_iff in Hq as [Ha Hs].
    destruct (p a) eqn:Hp.
    + intros [<-|H]; [now split|]. now apply IH.
    + destruct (split_on_nonnil p s) as (h & r & E). rewrite E in *.
      intros [<-|H].
      * destruct (IH h Hs ltac:(now left)) as [H1 H2].
        cbn [forallb_str]. now rewrite Ha, Hp, H1, H2.
      * apply IH; [exact Hs|now right].
Qed.

(** The alternate labels of a field are non-empty, without whitespace at
    their ends, in lower case and free of bars and double quotes. *)
Lemma alt_labels_normalised alts k :
  In k (alt_labels alts) ->
  k <> "" /\ strip k = k /\ lower k = k
  /\ forallb_str (fun c => negb (is_bar c) && negb (Ascii.eqb (ascii_of_nat 34) c)) k = true.
Proof.
  intros H. split; [now apply alt_labels_nonempty in H|].
  unfold alt_labels in H. apply filter_In in H as [H _].
  apply in_map_iff in H as (piece & <- & Hp).
  change dquote with (String (ascii_of_nat 34) "") in Hp.
  rewrite replace_char_delete in Hp.
  apply (split_on_pieces is_bar
           (fun c => Ascii.eqb (lower_char c) c && negb (Ascii.eqb (ascii_of_nat 34) c)))
    in Hp as [H1 H2].
  - split; [apply strip_idem|]. split.
    + apply lower_fixed, forallb_str_strip. eapply forallb_str_impl, H1.
      intros c Hc. now apply andb_true_iff in Hc as [-> _].
    + apply forallb_str_strip.
      assert (H3 : forallb_str (fun c => negb (Ascii.eqb (ascii_of_nat 34) c)) piece = true).
      { eapply forallb_str_impl, H1. intros c Hc. now apply andb_true_iff in Hc as [_ ->]. }
      clear H1. induction piece as [|a piece IH]; [reflexivity|].
      cbn [forallb_str] in *. apply andb_true_iff in H2 as [Ha2 Hp2].
      apply andb_true_iff in H3 as [Ha3 Hp3]. now rewrite Ha2, Ha3, IH.
  - set (d := Ascii.eqb (ascii_of_nat 34)).
    assert (Hl := forallb_str_lower_fixed alts).
    assert (Hd := forallb_str_delete_chars d (lower alts)).
    assert (Hk := forallb_str_delete_keep d _ _ Hl).
    clear Hl. induction (delete_chars d (lower alts)) as [|a s IH]; [reflexivity|].
    cbn [forallb_str] in *. apply andb_true_iff in Hd as [Hd1 Hd2].
    apply andb_true_iff in Hk as [Hk1 Hk2]. now rewrite Hk1, Hd1, IH.
Qed.

End AltLabels.

(** X15. Every key of [alt_map] is non-empty, has no whitespace at its ends,
    is in lower case and holds no bar and no double quote, so it has the
    form of a cleaned skill; its value is the canonical label of a row whose
    [altLabels] field lists the key. *)
Theorem alt_map_keys_and_values (esco_df : list esco_row) (k label : string) :
  alt_map_of esco_df !! k = Some label ->
  k <> "" /\ strip k = k /\ lower k = k
  /\ (forall c, In c (list_ascii_of_string k) -> c <> "|"%char /\ c <> ascii_of_nat 34)
  /\ exists row alts,
       In row esco_df /\ altLabels row = PyStr alts
       /\ In k (alt_labels alts) /\ preferredLabel row = label.
Proof.
  intros H. apply alt_map_lookup in H as (row & alts & Hrow & Halts & Hk & Hl).
  destruct (alt_labels_normalised alts k Hk) as (H1 & H2 & H3 & H4).
  split; [exact H1|]. split; [exact H2|]. split; [exact H3|]. split.
  - intros c Hc. pose proof (forallb_str_In _ _ H4 c Hc) as B.
    apply andb_true_iff in B as [B1 B2]. apply negb_true_iff in B1, B2.
    split; intros ->; [discriminate B1|].
    now rewrite Ascii.eqb_refl in B2.
  - exists row, alts. auto.
Qed.

Lemma alt_map_keys_and_values_witness :
  "data analytics" <> "" /\ strip "data analytics" = "data analytics"
  /\ lower "data analytics" = "data analytics"
  /\ (forall c, In c (list_ascii_of_string "data analytics") ->
        c <> "|"%char /\ c <> ascii_of_nat 34)
  /\ exists row alts,
       In row esco_fixture /\ altLabels row = PyStr alts
       /\ In "data analytics" (alt_labels alts)
       /\ preferredLabel row = "data analysis".
Proof.
  apply (alt_map_keys_and_values esco_fixture "data analytics" "data analysis").
  vm_compute. reflexivity.
Defined.

Section AltMapOrder.

Implicit Types (m : gmap string string) (esco_df : list esco_row).

Lemma foldl_insert_const_notin (v : string) (l : list string) : forall m k,
  ~ In k l -> foldl (fun m alt => <[alt := v]> m) m l !! k = m !! k.
Proof.
  induction l as [|a l IH]; intros m k Hnot; [reflexivity|].
  cbn [foldl]. rewrite IH by (intros H; apply Hnot; now right).
  apply lookup_insert_ne. intros ->. apply Hnot. now left.
Qed.

Lemma foldl_insert_const_in (v : string) (l : list string) : forall m k,
  In k l -> foldl (fun m alt => <[alt := v]> m) m l !! k = Some v.
Proof.
  induction l as [|a l IH]; intros m k; [intros []|].
  cbn [foldl]. intros Hin.
  destruct (in_dec String.string_dec k l) as [Hl|Hnot]; [now apply IH|].
  destruct Hin as [->|Hl]; [|contradiction].
  rewrite foldl_insert_const_notin by exact Hnot. apply lookup_insert_eq.
Qed.

Lemma foldl_app_gen {A B} (f : A -> B -> A) (l1 l2 : list B) : forall a,
  foldl f a (l1 ++ l2)%list = foldl f (foldl f a l1) l2.
Proof. induction l1 as [|b l1 IH]; intros a; [reflexivity|]. apply IH. Qed.

Lemma alt_fold_notin esco_df : forall m k,
  (forall r a, In r esco_df -> altLabels r = PyStr a -> ~ In k (alt_labels a)) ->
  foldl (fun m row =>
           match altLabels row with
           | PyStr alts =>
               foldl (fun m alt => <[alt := preferredLabel row]> m) m (alt_labels alts)
           | _ => m
           end) m esco_df !! k = m !! k.
Proof.
  induction esco_df as [|row esco_df IH]; intros m k H; [reflexivity|].
  cbn [foldl]. rewrite IH by (intros r a Hr; apply H; now right).
  destruct (altLabels row) as [alts| |] eqn:E; try reflexivity.
  apply foldl_insert_const_notin. apply (H row alts); [now left|exact E].
Qed.

End AltMapOrder.

(** X16. When several rows list the same alternate label, the last of them
    gives the value of [alt_map]: the key maps to the canonical label of a
    row that lists it when no later row does. *)
Theorem alt_map_last_row_wins (before : list esco_row) (row : esco_row)
    (after : list esco_row) (alts k : string) :
  altLabels row = PyStr alts ->
  In k (alt_labels alts) ->
  (forall r a, In r after -> altLabels r = PyStr a -> ~ In k (alt_labels a)) ->
  alt_map_of (before ++ row :: after)%list !! k = Some (preferredLabel row).
Proof.
  intros Halts Hk Hafter. unfold alt_map_of.
  rewrite foldl_app_gen. cbn [foldl].
  rewrite alt_fold_notin by exact Hafter.
  rewrite Halts. now apply foldl_insert_const_in.
Qed.

Lemma alt_map_last_row_wins_witness :
  alt_map_of ([ {| preferredLabel := "statistics"; altLabels := PyStr "stats" |} ]
              ++ {| preferredLabel := "statistical analysis"; altLabels := PyStr "Stats|r" |}
              :: [ {| preferredLabel := "SQL"; altLabels := PyNaN |} ])%list
    !! "stats"
  = Some "statistical analysis".
Proof.
  apply (alt_map_last_row_wins
           [ {| preferredLabel := "statistics"; altLabels := PyStr "stats" |} ]
           {| preferredLabel := "statistical analysis"; altLabels := PyStr "Stats|r" |}
           [ {| preferredLabel := "SQL"; altLabels := PyNaN |} ] "Stats|r" "stats").
  - reflexivity.
  - vm_compute. left. reflexivity.
  - intros r a [<-|[]] H. discriminate H.
Defined.

Section Separators.

Implicit Types (s t : string) (c : ascii).

Lemma replace_semicolon_cons c s :
  replace ";" "," (String c s)
  = String (if Ascii.eqb c ";" then ","%char else c) (replace ";" "," s).
Proof.
  unfold replace. cbn [replace_from String.prefix String.length Nat.sub].
  destruct (ascii_dec ";" c) as [<-|Hne].
  - destruct s; reflexivity.
  - assert (E : Ascii.eqb c ";" = false).
    { apply Ascii.eqb_neq. congruence. }
    now rewrite E.
Qed.

Lemma lower_char_semicolon c :
  Ascii.eqb (lower_char c) ";" = Ascii.eqb c ";"
  /\ isspace (if Ascii.eqb c ";" then ","%char else c) = isspace c.
Proof. destruct c as [[] [] [] [] [] [] [] []]; vm_compute; split; reflexivity. Qed.

Lemma lower_replace_semicolon s :
  lower (replace ";" "," s) = replace ";" "," (lower s).
Proof.
  induction s as [|a s IH]; [reflexivity|].
  cbn [lower]. rewrite !replace_semicolon_cons. cbn [lower]. rewrite IH.
  rewrite (proj1 (lower_char_semicolon a)).
  destruct (Ascii.eqb a ";"); reflexivity.
Qed.

Lemma replace_semicolon_idem s :
  replace ";" "," (replace ";" "," s) = replace ";" "," s.
Proof.
  induction s as [|a s IH]; [reflexivity|].
  rewrite !replace_semicolon_cons, IH.
  destruct (Ascii.eqb a ";") eqn:E; [reflexivity|]. now rewrite E.
Qed.

Lemma blank_replace_semicolon s :
  is_empty (strip (replace ";" "," s)) = is_empty (strip s).
Proof.
  assert (H : forallb_str isspace (replace ";" "," s) = forallb_str isspace s).
  { induction s as [|a s IH]; [reflexivity|].
    rewrite replace_semicolon_cons. cbn [forallb_str].
    now rewrite IH, (proj2 (lower_char_semicolon a)). }
  destruct (is_empty (strip s)) eqn:E.
  - apply is_empty_true, strip_empty_all_space in E.
    apply is_empty_true, strip_empty_all_space. now rewrite H.
  - destruct (is_empty (strip (replace ";" "," s))) eqn:E'; [|reflexivity].
    apply is_empty_true, strip_empty_all_space in E'. rewrite H in E'.
    apply strip_empty_all_space, is_empty_true in E'. congruence.
Qed.

End Separators.

(** X17. The cleaning ignores the case of the raw text and treats a
    semicolon as a comma: the candidate phrases of a text are those of its
    lower-cased form and those of the text with every semicolon turned into
    a comma. *)
Theorem clean_ignores_case_and_semicolons (text : string) :
  clean_extracted_skills (PyStr (lower text)) = clean_extracted_skills (PyStr text)
  /\ clean_extracted_skills (PyStr (replace ";" "," text))
     = clean_extracted_skills (PyStr text).
Proof.
  unfold clean_extracted_skills. split.
  - now rewrite strip_lower, is_empty_lower, lower_idem.
  - now rewrite blank_replace_semicolon, lower_replace_semicolon,
      replace_semicolon_idem.
Qed.

(* ================================================================== *)
(** ** The keyword filter of the knowledge-graph cell *)
(* ================================================================== *)

Section KeywordFilter.

Lemma contains_char (c : ascii) (s : string) :
  In c (list_ascii_of_string s) -> contains (String c "") s = true.
Proof.
  induction s as [|a s IH]; [intros []|].
  cbn [list_ascii_of_string contains String.prefix]. intros [->|H].
  - destruct (ascii_dec c c); [|congruence]. now destruct s.
  - rewrite (IH H). apply orb_true_r.
Qed.

Lemma In_lower (c : ascii) (s : string) :
  In c (list_ascii_of_string s) -> In (lower_char c) (list_ascii_of_string (lower s)).
Proof.
  induction s as [|a s IH]; [intros []|].
  cbn [list_ascii_of_string lower]. intros [->|H]; [now left|right; auto].
Qed.

Lemma letter_r_is_keyword (s : string) :
  (exists c, In c (list_ascii_of_string s) /\ (c = "r"%char \/ c = "R"%char)) ->
  contains_keyword data_science_keywords s = true.
Proof.
  intros (c & Hc & Hr). unfold contains_keyword. apply existsb_exists.
  exists "R". split; [right; left; reflexivity|].
  change (lower "R") with "r". apply contains_char.
  apply In_lower in Hc. destruct Hr as [-> | ->]; exact Hc.
Qed.

End KeywordFilter.

(** X18. The one-letter keyword "R" is matched without regard to case, so
    every row of the ontology whose canonical label holds the letter r, in
    either case, is kept by the keyword filter. The filter only selects
    rows of the ontology, and at most 50 labels, and no more than the
    filter kept, are sampled for the prompt. *)
Theorem keyword_filter_keeps_letter_r (esco_df_full : list esco_row) (row : esco_row) :
  In row esco_df_full ->
  (exists c, In c (list_ascii_of_string (preferredLabel row))
             /\ (c = "r"%char \/ c = "R"%char)) ->
  In row (esco_df_ce_related_of esco_df_full)
  /\ (forall r, In r (esco_df_ce_related_of esco_df_full) -> In r esco_df_full)
  /\ (length (esco_df_ce_related_of esco_df_full) <= length esco_df_full)%nat
  /\ (num_to_sample_of esco_df_full <= n_samples_for_prompt)%nat
  /\ (num_to_sample_of esco_df_full <= length (esco_df_ce_related_of esco_df_full))%nat.
Proof.
  intros Hin Hr. unfold esco_df_ce_related_of, num_to_sample_of. split; [|split; [|split]].
  - apply filter_In. split; [exact Hin|].
    now rewrite (letter_r_is_keyword _ Hr).
  - intros r H. now apply filter_In in H.
  - apply List.filter_length_le.
  - split; [apply Nat.le_min_l|apply Nat.le_min_r].
Qed.

Lemma keyword_filter_keeps_letter_r_witness :
  In {| preferredLabel := "carpentry"; altLabels := PyNaN |}
     (esco_df_ce_related_of [ {| preferredLabel := "carpentry"; altLabels := PyNaN |} ])
  /\ (forall r,
        In r (esco_df_ce_related_of [ {| preferredLabel := "carpentry"; altLabels := PyNaN |} ])
        -> In r [ {| preferredLabel := "carpentry"; altLabels := PyNaN |} ])
  /\ (length (esco_df_ce_related_of [ {| preferredLabel := "carpentry"; altLabels := PyNaN |} ])
      <= length [ {| preferredLabel := "carpentry"; altLabels := PyNaN |} ])%nat
  /\ (num_to_sample_of [ {| preferredLabel := "carpentry"; altLabels := PyNaN |} ]
      <= n_samples_for_prompt)%nat
  /\ (num_to_sample_of [ {| preferredLabel := "carpentry"; altLabels := PyNaN |} ]
      <= length (esco_df_ce_related_of
                   [ {| preferredLabel := "carpentry"; altLabels := PyNaN |} ]))%nat.
Proof.
  apply (keyword_filter_keeps_letter_r
           [ {| preferredLabel := "carpentry"; altLabels := PyNaN |} ]
           {| preferredLabel := "carpentry"; altLabels := PyNaN |}).
  - left. reflexivity.
  - exists "r"%char. split; [|left; reflexivity].
    right. right. left. reflexivity.
Defined.

(* ================================================================== *)
(** ** Further properties of the evaluator *)
(* ================================================================== *)

Section MetricsFacts.

Implicit Types (M E : gset string).

Lemma Qnat_add a b : (Qnat (a + b) == Qnat a + Qnat b)%Q.
Proof. unfold Qnat. now rewrite Nat2Z.inj_add, inject_Z_plus. Qed.

Lemma Qnat_eq_0 a : (Qnat a == 0)%Q -> a = 0%nat.
Proof. unfold Qnat, Qeq. simpl. lia. Qed.

Lemma Qnat_inj a b : (Qnat a == Qnat b)%Q -> a = b.
Proof. unfold Qnat, Qeq. simpl. lia. Qed.

(** The two cases of the metrics: no common skill, and all three are 0; or
    some common skill, and precision and recall are the two ratios, both
    positive, and F1 their harmonic mean. *)
Lemma metrics_cases M E :
  let m := calculate_metrics E M in
  (size (M ∩ E) = 0%nat
   /\ (precision_of m == 0 /\ recall_of m == 0 /\ f1_of m == 0)%Q)
  \/ ((0 < size (M ∩ E))%nat /\ (0 < size M)%nat /\ (0 < size E)%nat
      /\ precision_of m = (Qnat (size (M ∩ E)) / Qnat (size M))%Q
      /\ recall_of m = (Qnat (size (M ∩ E)) / Qnat (size E))%Q
      /\ (0 < precision_of m /\ 0 < recall_of m)%Q
      /\ (f1_of m == 2 * (precision_of m * recall_of m)
                     / (precision_of m + recall_of m))%Q).
Proof.
  intros m. subst m.
  pose proof (inter_size_le_l M E) as HlM. pose proof (inter_size_le_r M E) as HlE.
  destruct (Nat.eq_dec (size (M ∩ E)) 0) as [Htp|Htp].
  - left. split; [exact Htp|].
    assert (Hp0 : (precision_of (calculate_metrics E M) == 0)%Q).
    { rewrite precision_eq, Htp. destruct (0 <? size M)%nat; [apply ratio_zero|reflexivity]. }
    assert (Hr0 : (recall_of (calculate_metrics E M) == 0)%Q).
    { rewrite recall_eq, Htp. destruct (0 <? size E)%nat; [apply ratio_zero|reflexivity]. }
    split; [exact Hp0|]. split; [exact Hr0|].
    rewrite f1_eq. cbv zeta. destruct (Qgtb _ 0) eqn:Hg; [|reflexivity].
    apply Qgtb_true in Hg. rewrite Hp0, Hr0 in Hg. exfalso. revert Hg. apply Qlt_irrefl.
  - right.
    assert (HM : (0 <? size M)%nat = true) by (apply Nat.ltb_lt; lia).
    assert (HE : (0 <? size E)%nat = true) by (apply Nat.ltb_lt; lia).
    assert (Ep : precision_of (calculate_metrics E M)
                 = (Qnat (size (M ∩ E)) / Qnat (size M))%Q)
      by (now rewrite precision_eq, HM).
    assert (Er : recall_of (calculate_metrics E M)
                 = (Qnat (size (M ∩ E)) / Qnat (size E))%Q)
      by (now rewrite recall_eq, HE).
    assert (Hp : (0 < precision_of (calculate_metrics E M))%Q)
      by (rewrite Ep; apply ratio_pos; lia).
    assert (Hr : (0 < recall_of (calculate_metrics E M))%Q)
      by (rewrite Er; apply ratio_pos; lia).
    split; [lia|]. split; [lia|]. split; [lia|]. split; [exact Ep|].
    split; [exact Er|]. split; [split; assumption|].
    rewrite f1_eq. cbv zeta.
    assert (Hs : (0 < precision_of (calculate_metrics E M)
                      + recall_of (calculate_metrics E M))%Q) by lra.
    apply Qgtb_true in Hs. rewrite Hs. reflexivity.
Qed.

End MetricsFacts.

(** In the exact arithmetic of the model, F1 is twice the number of common
    skills over the sum of the two sizes. *)
Lemma f1_is_dice_formula (gt_set pred_set : gset string) :
  (0 < size pred_set + size gt_set)%nat ->
  (f1_of (calculate_metrics gt_set pred_set)
   == 2 * Qnat (size (pred_set ∩ gt_set)) / Qnat (size pred_set + size gt_set))%Q.
Proof.
  intros Hpos.
  assert (Hd : (0 < Qnat (size pred_set + size gt_set))%Q) by now apply Qnat_pos.
  destruct (metrics_cases pred_set gt_set)
    as [(Htp & _ & _ & Hf)|(Htp & HM & HE & Ep & Er & [Hp Hr] & Hf)].
  - rewrite Hf, Htp. unfold Qdiv. change (Qnat 0) with 0%Q.
    now rewrite Qmult_0_r, Qmult_0_l.
  - rewrite Hf. rewrite Ep, Er in *.
    pose proof (Qnat_pos _ Htp) as H1. pose proof (Qnat_pos _ HM) as H2.
    pose proof (Qnat_pos _ HE) as H3. rewrite Qnat_add in *.
    field. repeat split; try lra.
    intros H. 
    assert (H' : (0 < Qnat (size (pred_set ∩ gt_set)) * Qnat (size gt_set)
                    + Qnat (size (pred_set ∩ gt_set)) * Qnat (size pred_set))%Q) by nra.
    lra.
Qed.

(** X20. Swapping the two sets swaps precision and recall and leaves F1
    unchanged. *)
Theorem metrics_swap (A B : gset string) :
  precision_of (calculate_metrics A B) = recall_of (calculate_metrics B A)
  /\ recall_of (calculate_metrics A B) = precision_of (calculate_metrics B A)
  /\ (f1_of (calculate_metrics A B) == f1_of (calculate_metrics B A))%Q.
Proof.
  assert (E1 : precision_of (calculate_metrics A B) = recall_of (calculate_metrics B A)).
  { rewrite precision_eq, recall_eq. now rewrite (comm_L (∩) A B). }
  assert (E2 : recall_of (calculate_metrics A B) = precision_of (calculate_metrics B A)).
  { rewrite precision_eq, recall_eq. now rewrite (comm_L (∩) A B). }
  split; [exact E1|]. split; [exact E2|].
  rewrite !f1_eq. cbv zeta. rewrite E1, E2.
  set (p := precision_of (calculate_metrics B A)).
  set (r := recall_of (calculate_metrics B A)).
  destruct (Qgtb (r + p) 0) eqn:G1; destruct (Qgtb (p + r) 0) eqn:G2.
  - apply Qgtb_true in G1. field. lra.
  - apply Qgtb_true in G1. apply Qgtb_false in G2. lra.
  - apply Qgtb_true in G2. apply Qgtb_false in G1. lra.
  - reflexivity.
Qed.

Section PerfectScores.

Implicit Types (M E : gset string).

Lemma ratio_one a b : (0 < b)%nat -> (Qnat a / Qnat b == 1)%Q <-> a = b.
Proof.
  intros Hb. pose proof (Qnat_pos b Hb) as Hpos. split.
  - intros H. apply Qnat_inj.
    assert (E : (Qnat a == (Qnat a / Qnat b) * Qnat b)%Q) by (field; lra).
    rewrite E, H. ring.
  - intros ->. field. lra.
Qed.

Lemma inter_size_full_l M E : size (M ∩ E) = size M <-> M ⊆ E.
Proof.
  split.
  - intros H. apply subseteq_intersection_2.
    apply set_subseteq_size_equiv; [apply intersection_subseteq_l|lia].
  - intros H. f_equal. apply leibniz_equiv. now apply subseteq_intersection_1.
Qed.

Lemma inter_size_full_r M E : size (M ∩ E) = size E <-> E ⊆ M.
Proof. rewrite (comm_L (∩) M E). apply inter_size_full_l. Qed.

End PerfectScores.

(** X21. For a non-empty mapped set, precision is 1 exactly when every
    mapped skill is expected; for a non-empty expected set, recall is 1
    exactly when every expected skill is mapped; and F1 is 1 exactly when
    the two sets are equal and not empty. *)
Theorem perfect_scores (gt_set pred_set : gset string) :
  let m := calculate_metrics gt_set pred_set in
  (pred_set <> ∅ -> (precision_of m == 1)%Q <-> pred_set ⊆ gt_set)
  /\ (gt_set <> ∅ -> (recall_of m == 1)%Q <-> gt_set ⊆ pred_set)
  /\ ((f1_of m == 1)%Q <-> pred_set = gt_set /\ pred_set <> ∅).
Proof.
  intros m. subst m.
  assert (Hsz : forall X : gset string, X <> ∅ -> (0 < size X)%nat).
  { intros X HX. destruct (Nat.eq_dec (size X) 0) as [E|E]; [|lia].
    apply size_empty_iff, leibniz_equiv in E. contradiction. }
  split; [|split].
  - intros HM. specialize (Hsz _ HM).
    rewrite precision_eq. assert (E : (0 <? size pred_set)%nat = true) by now apply Nat.ltb_lt.
    rewrite E, ratio_one by exact Hsz. apply inter_size_full_l.
  - intros HE. specialize (Hsz _ HE).
    rewrite recall_eq. assert (E : (0 <? size gt_set)%nat = true) by now apply Nat.ltb_lt.
    rewrite E, ratio_one by exact Hsz. apply inter_size_full_r.
  - pose proof (inter_size_le_l pred_set gt_set) as HlM.
    pose proof (inter_size_le_r pred_set gt_set) as HlE.
    split.
    + intros H1.
      assert (Hpos : (0 < size pred_set + size gt_set)%nat).
      { destruct (Nat.eq_dec (size pred_set + size gt_set) 0) as [E|E]; [|lia].
        exfalso. destruct (metrics_cases pred_set gt_set)
          as [(_ & _ & _ & Hf)|(Htp & HM & _)]; [|lia].
        rewrite Hf in H1. discriminate H1. }
      rewrite f1_is_dice_formula in H1 by exact Hpos.
      assert (Hd : (0 < Qnat (size pred_set + size gt_set))%Q) by now apply Qnat_pos.
      assert (E : (2 * Qnat (size (pred_set ∩ gt_set))
                   == Qnat (size pred_set + size gt_set))%Q).
      { assert (E0 : (2 * Qnat (size (pred_set ∩ gt_set))
                      == (2 * Qnat (size (pred_set ∩ gt_set))
                          / Qnat (size pred_set + size gt_set))
                         * Qnat (size pred_set + size gt_set))%Q) by (field; lra).
        rewrite E0, H1. ring. }
      assert (En : (2 * size (pred_set ∩ gt_set) = size pred_set + size gt_set)%nat).
      { apply Qnat_inj. rewrite <- E. unfold Qnat.
        rewrite Nat2Z.inj_mul, inject_Z_mult. reflexivity. }
      assert (EM : size (pred_set ∩ gt_set) = size pred_set) by lia.
      assert (EE : size (pred_set ∩ gt_set) = size gt_set) by lia.
      apply inter_size_full_l in EM. apply inter_size_full_r in EE.
      split.
      * apply leibniz_equiv. apply (anti_symm (⊆)); assumption.
      * intros ->. rewrite size_empty in Hpos.
        assert (size gt_set = 0%nat); [|lia].
        apply size_empty_iff. apply equiv_empty. exact EE.
    + intros [<- HM]. specialize (Hsz _ HM).
      rewrite f1_is_dice_formula by lia.
      assert (EI : pred_set ∩ pred_set = pred_set) by (apply leibniz_equiv, idemp; apply _).
      rewrite EI, Qnat_add. pose proof (Qnat_pos _ Hsz). field. lra.
Qed.

(** X22. Precision, recall and F1 are 0 together, and that happens exactly
    when the two sets have no skill in common. *)
Theorem zero_scores (gt_set pred_set : gset string) :
  let m := calculate_metrics gt_set pred_set in
  ((precision_of m == 0)%Q <-> pred_set ∩ gt_set = ∅)
  /\ ((recall_of m == 0)%Q <-> pred_set ∩ gt_set = ∅)
  /\ ((f1_of m == 0)%Q <-> pred_set ∩ gt_set = ∅).
Proof.
  intros m. subst m.
  assert (Hz : size (pred_set ∩ gt_set) = 0%nat <-> pred_set ∩ gt_set = ∅).
  { rewrite size_empty_iff. split; [apply leibniz_equiv|now intros ->]. }
  destruct (metrics_cases pred_set gt_set)
    as [(Htp & Hp & Hr & Hf)|(Htp & HM & HE & Ep & Er & [Hp Hr] & Hf)].
  - apply Hz in Htp. repeat split; auto.
  - assert (Hne : pred_set ∩ gt_set <> ∅) by (intros H; apply Hz in H; lia).
    assert (Hf1 : (0 < f1_of (calculate_metrics gt_set pred_set))%Q).
    { rewrite Hf. apply Qlt_shift_div_l; [lra|]. nra. }
    repeat split; intros H; try contradiction; exfalso; lra.
Qed.
